(** * Elmish random generators

    A shallow embedding of the library [elmish-random.ts] (composable random
    generators in the style of Elm's random package) and the properties its
    specification states.

    Modelling conventions.
    - A JavaScript computation may change the state of the world (the state
      of [Math.random], the seed captured by a seeded source, ...) and may
      throw.  It is a function from the world [W] to a completion (a value
      or a thrown error) and the new world.
    - A [number] is an IEEE 754 binary64 value.  The module [Random64] gives
      the numeric factories on the primitive binary64 numbers of the
      prover ([float], with the operations of the processor, rounding to
      nearest with ties to even, infinities and [NaN]); the properties of
      the numbers that the factories produce are stated on it.  The module
      [Random] gives the same factories on exact rationals ([Q], with
      [Qfloor] for [Math.floor]): it is the reading without rounding and
      without overflow, used for the laws of the combinators and for the
      example programs, whose statements do not depend on rounding.
    - [Math.floor] is defined on the integer representation of a double;
      [Math.pow] and [Math.sin] are functions of the host and are
      parameters.
    - A value read from an array by index may be [undefined]: it is an
      [option].  An array that is written by index may have holes: it is a
      list of options.
    - The [source] parameter of the factories is always given; its default,
      [Math.random], is one of the sources. *)

From Stdlib Require Import String Ascii List ZArith QArith Qround Qpower Lia Lqa Bool Arith.
From Stdlib Require Import Floats.
From Stdlib Require Uint63.
From Equations Require Import Equations.
From Equations.Prop Require Import Logic.
Import ListNotations.

Set Implicit Arguments.
Set Equations Transparent.

(** ** Computations *)

Inductive Completion (A : Type) : Type :=
| Normal (value : A)
| Throw (message : string).

Arguments Normal {A} value.
Arguments Throw {A} message.

Definition Js (W A : Type) : Type := W -> Completion A * W.

Definition ret {W A : Type} (a : A) : Js W A :=
  fun w => (Normal a, w).

Definition throw {W A : Type} (message : string) : Js W A :=
  fun w => (Throw message, w).

Definition bind {W A B : Type} (c : Js W A) (k : A -> Js W B) : Js W B :=
  fun w =>
    match c w with
    | (Normal a, w') => k a w'
    | (Throw message, w') => (Throw message, w')
    end.

Notation "x <- c ;; k" := (bind c (fun x => k))
  (at level 61, c at next level, right associativity).

(** Composition of two functions of the program, [x => h(f(x))]. *)
Definition compose_js {W A B C : Type}
    (h : B -> Js W C) (f : A -> Js W B) : A -> Js W C :=
  fun x => y <- f x ;; h y.

(** An arrow function whose body is an expression without effects. *)
Definition pure {W A B : Type} (f : A -> B) : A -> Js W B :=
  fun x => ret (f x).

(** ** Functions and calls *)

(** A function value of the program: the number of parameters that its
    declaration lists, and its body, which reads the values bound to these
    parameters ([None] is [undefined]).  The functions of the library are
    arrow functions, which have no [arguments] object: an argument that is
    bound to no parameter cannot be read by the body. *)
Record Function (W T A : Type) : Type :=
  function { parameters : nat; body : list (option T) -> Js W A }.

(** The values that a call binds to [n] parameters: the parameters take the
    arguments in order, a parameter without an argument is [undefined], and
    the arguments past the last parameter are bound to nothing. *)
Fixpoint bind_arguments {T : Type} (n : nat) (arguments : list T)
  : list (option T) :=
  match n with
  | O => []
  | S n' =>
      match arguments with
      | [] => None :: bind_arguments n' []
      | t :: rest => Some t :: bind_arguments n' rest
      end
  end.

(** The call [f(t1, ..., tk)]. *)
Definition call {W T A : Type} (f : Function W T A) (arguments : list T)
  : Js W A :=
  body f (bind_arguments (parameters f) arguments).

(** ** Arrays *)

(** [l[i]] for a number [i]: the element when [i] is an index of [l],
    [undefined] otherwise (also when [i] is negative or not an integer). *)
Definition index {A : Type} (l : list A) (i : Q) : option A :=
  if Qeq_bool i (inject_Z (Qfloor i)) && (0 <=? Qfloor i)%Z
  then nth_error l (Z.to_nat (Qfloor i))
  else None.

(** [result[i] = x] on an array with holes: an index of the array is
    overwritten, an index past the end extends the array, leaving holes
    between the old end and [i]. *)
Definition array_set {A : Type} (result : list (option A)) (i : nat) (x : A)
  : list (option A) :=
  if i <? length result
  then firstn i result ++ Some x :: skipn (S i) result
  else result ++ repeat None (i - length result) ++ [Some x].

(** ** Binary64 numbers *)

Module Number.

(** [Math.floor] on the integer representation of a double [m * 2^e] with
    its sign: the greatest integer that is not above it.  An integer, an
    infinity, a zero of either sign and [NaN] are returned as they are. *)
Definition SFfloor (x : spec_float) : spec_float :=
  match x with
  | S754_finite s m e =>
      if (0 <=? e)%Z then x
      else
        let q := (Zpos m / 2 ^ (- e))%Z in
        if s
        then binary_normalize prec emax
               (- (if (Zpos m mod 2 ^ (- e) =? 0)%Z then q else q + 1))%Z 0 true
        else binary_normalize prec emax q 0 false
  | _ => x
  end.

Definition floor (x : float) : float := SF2Prim (SFfloor (Prim2SF x)).

(** The number of a natural number, such as the length of an array. *)
Definition of_nat (n : nat) : float :=
  PrimFloat.of_uint63 (Uint63.of_Z (Z.of_nat n)).

(** The integer of a number that is a non-negative integer; both zeros are
    the integer zero. *)
Definition integer_of (x : float) : option Z :=
  match Prim2SF x with
  | S754_zero _ => Some 0%Z
  | S754_finite false m e =>
      if (0 <=? e)%Z then Some (Zpos m * 2 ^ e)%Z
      else if (Zpos m mod 2 ^ (- e) =? 0)%Z then Some (Zpos m / 2 ^ (- e))%Z
      else None
  | _ => None
  end.

(** [Number.MAX_VALUE], the greatest finite double, and the greatest double
    below one, which is the greatest number that [Math.random] returns. *)
Definition MAX_VALUE : float := 0x1.fffffffffffffp+1023%float.
Definition below_one : float := 0x1.fffffffffffffp-1%float.

End Number.

(** [l[i]] for a double [i]: the element when [i] is an index of [l],
    [undefined] otherwise (also when [i] is negative, not an integer,
    infinite or [NaN]). *)
Definition index64 {A : Type} (l : list A) (i : float) : option A :=
  match Number.integer_of i with
  | Some z => if (z <? Z.of_nat (length l))%Z then nth_error l (Z.to_nat z) else None
  | None => None
  end.

(** ** The library *)

Module Random.

Section Engine.

Variable W : Type.

Definition Source (A : Type) : Type := Js W A.

Definition Transformer (A B : Type) : Type := A -> Js W B.

(** The object built by [generate] has the three methods [map], [then] and
    [next], each closed over [source]: a generator is determined by its
    source, and the methods are functions of the generator. *)
Record Generator (A : Type) : Type := generate { source : Source A }.

Definition next {A : Type} (g : Generator A) : Source A :=
  fun w => source g w.

(** The method [next] as the function value that [generate] stores in the
    object, [(): A => source()]: its declaration lists no parameter.  [T] is
    the type of the values that a caller may pass. *)
Definition next_function {T A : Type} (g : Generator A) : Function W T A :=
  function 0 (fun _ => source g).

Definition map {A B : Type} (g : Generator A) (transformer : Transformer A B)
  : Generator B :=
  generate (a <- source g ;; transformer a).

Definition then_ {A B : Type} (g : Generator A)
    (transformer : Transformer A (Generator B)) : Generator B :=
  generate (a <- source g ;; g' <- transformer a ;; next g').

Definition constant {A : Type} (value : A) : Generator A :=
  generate (ret value).

Definition float (min max : Q) (source : Source Q) : Generator Q :=
  map (generate source) (pure (fun f => min + (max - min) * f)).

Definition toPrecision (precision : Z) (x : Q) : Q :=
  let power := inject_Z 10 ^ precision in
  inject_Z (Qfloor (x * power)) / power.

Definition floatWithPrecision (min max : Q) (precision : Z)
    (source : Source Q) : Generator Q :=
  map (float min max source) (pure (toPrecision precision)).

Definition int (min max : Q) (source : Source Q) : Generator Q :=
  floatWithPrecision min (max + 1) 0 source.

Definition boolean (source : Source Q) : Generator bool :=
  map (generate source) (pure (fun f => negb (Qle_bool f (1 # 2)))).

Definition uniform {A : Type} (first : A) (rest : list A) (source : Source Q)
  : Generator (option A) :=
  if (length rest =? 0)%nat
  then constant (Some first)
  else map (int 0 (inject_Z (Z.of_nat (length rest))) source)
           (pure (fun i => index (first :: rest) i)).

(** [source[i]] is read only after the test [i === source.length] has
    failed.  The recursion starts at [i = 0] and counts up, so the read is
    within the array; a read past the end (which only a start index greater
    than the length would cause, and is a [TypeError] in the program) ends
    the recursion here. *)
Equations continiousSum {A : Type} (source : list (A * Q))
    (target : list (A * Q)) (i : nat) (sum : Q)
  : list (A * Q) by wf (length source - i)%nat lt :=
continiousSum source target i sum with Nat.eq_dec i (length source) := {
  | left _ => target
  | right _ with inspect (nth_error source i) := {
    | exist _ (Some e) Hread =>
        continiousSum source (target ++ [(fst e, snd e + sum)]) (i + 1)
                      (sum + snd e)
    | exist _ None Hread => target } }.
Next Obligation.
  match goal with
  | H : nth_error ?l ?k = Some _ |- _ =>
      assert (k < length l)%nat by (apply nth_error_Some; congruence)
  end.
  lia.
Qed.

Equations getByWeight {A : Type} (source : list (A * Q)) (weight : Q)
    (i : nat) : Js W A by wf (length source - i)%nat lt :=
getByWeight source weight i with lt_dec i (length source) := {
  | left _ with nth_error source i := {
    | Some e =>
        if Qle_bool weight (snd e)
        then ret (fst e)
        else getByWeight source weight (i + 1)
    | None => throw "TypeError" }
  | right _ => throw "Uhhh... bad!!!!" }.
Next Obligation. lia. Qed.

Definition weighted {A : Type} (first : A * Q) (rest : list (A * Q))
    (source : Source Q) : Generator A :=
  if (length rest =? 0)%nat
  then constant (fst first)
  else
    let sum := fold_left (fun acc pair => acc + snd pair) rest (snd first) in
    let normalized := continiousSum (first :: rest) [] 0 0 in
    map (float 0 sum source) (fun x => getByWeight normalized x 0).

Definition pair {A B : Type} (leftGenerator : Generator A)
    (rightGenerator : Generator B) : Generator (A * B) :=
  generate (a <- next leftGenerator ;; b <- next rightGenerator ;; ret (a, b)).

(** The [for] loop of [list]: [i] counts up from [0] while [i < len]. *)
Equations list_loop {A : Type} (len : Z) (generator : Generator A) (i : nat)
    (result : list (option A)) (w : W)
  : Completion (list (option A)) * W by wf (Z.to_nat (len - Z.of_nat i)) lt :=
list_loop len generator i result w with Z_lt_dec (Z.of_nat i) len := {
  | left _ with next generator w := {
    | (Normal x, w') => list_loop len generator (i + 1) (array_set result i x) w'
    | (Throw message, w') => (Throw message, w') }
  | right _ => (Normal result, w) }.
Next Obligation. lia. Qed.

Definition list {A : Type} (len : Z) (generator : Generator A)
  : Generator (Datatypes.list (option A)) :=
  generate (fun w => list_loop len generator 0 [] w).

End Engine.

Arguments constant {W A} value.

Section Seeded.

(** [Math.sin], a function of the host from numbers to numbers. *)
Variable sin : Q -> Q.

(** The closure that [simpleSeeded(seed)] returns owns the variable [seed],
    which each call overwrites: that variable is the world of the source,
    and the argument of [simpleSeeded] is its first value. *)
Definition simpleSeeded : Source Q Q :=
  fun seed =>
    let seed := sin seed * inject_Z 10000 in
    (Normal (seed - inject_Z (Qfloor seed)), seed).

End Seeded.

End Random.

(** ** The numeric factories on binary64 numbers *)

Module Random64.

Section Engine.

Variable W : Type.

(** [Math.pow], which [10 ** precision] calls: a function of the host from
    numbers to numbers. *)
Variable Math_pow : PrimFloat.float -> PrimFloat.float -> PrimFloat.float.

Definition float (min max : PrimFloat.float)
    (source : Random.Source W PrimFloat.float)
  : Random.Generator W PrimFloat.float :=
  Random.map (Random.generate source)
             (pure (fun f => (min + (max - min) * f)%float)).

Definition toPrecision (precision : PrimFloat.float) (x : PrimFloat.float)
  : PrimFloat.float :=
  let power := Math_pow 10%float precision in
  (Number.floor (x * power) / power)%float.

Definition floatWithPrecision (min max : PrimFloat.float)
    (precision : PrimFloat.float) (source : Random.Source W PrimFloat.float)
  : Random.Generator W PrimFloat.float :=
  Random.map (float min max source) (pure (toPrecision precision)).

Definition int (min max : PrimFloat.float)
    (source : Random.Source W PrimFloat.float)
  : Random.Generator W PrimFloat.float :=
  floatWithPrecision min (max + 1)%float 0%float source.

Definition uniform {A : Type} (first : A) (rest : list A)
    (source : Random.Source W PrimFloat.float)
  : Random.Generator W (option A) :=
  if (length rest =? 0)%nat
  then Random.constant (Some first)
  else Random.map (int 0%float (Number.of_nat (length rest)) source)
                  (pure (fun i => index64 (first :: rest) i)).

(** As in [Random.continiousSum], the read [source[i]] is within the array
    when the recursion starts at [i = 0]. *)
Equations continiousSum {A : Type} (source : list (A * PrimFloat.float))
    (target : list (A * PrimFloat.float)) (i : nat) (sum : PrimFloat.float)
  : list (A * PrimFloat.float) by wf (length source - i)%nat lt :=
continiousSum source target i sum with Nat.eq_dec i (length source) := {
  | left _ => target
  | right _ with inspect (nth_error source i) := {
    | exist _ (Some e) Hread =>
        continiousSum source (target ++ [(fst e, (snd e + sum)%float)]) (i + 1)
                      (sum + snd e)%float
    | exist _ None Hread => target } }.
Next Obligation.
  match goal with
  | H : nth_error ?l ?k = Some _ |- _ =>
      assert (k < length l)%nat by (apply nth_error_Some; congruence)
  end.
  lia.
Qed.

Equations getByWeight {A : Type} (source : list (A * PrimFloat.float))
    (weight : PrimFloat.float) (i : nat) : Js W A by wf (length source - i)%nat lt :=
getByWeight source weight i with lt_dec i (length source) := {
  | left _ with nth_error source i := {
    | Some e =>
        if (weight <=? snd e)%float
        then ret (fst e)
        else getByWeight source weight (i + 1)
    | None => throw "TypeError" }
  | right _ => throw "Uhhh... bad!!!!" }.
Next Obligation. lia. Qed.

Definition weighted {A : Type} (first : A * PrimFloat.float)
    (rest : list (A * PrimFloat.float))
    (source : Random.Source W PrimFloat.float) : Random.Generator W A :=
  if (length rest =? 0)%nat
  then Random.constant (fst first)
  else
    let sum := fold_left (fun acc pair => (acc + snd pair)%float) rest
                         (snd first) in
    let normalized := continiousSum (first :: rest) [] 0 0%float in
    Random.map (float 0%float sum source)
               (fun x => getByWeight normalized x 0).

End Engine.

End Random64.

(** ** Deterministic sources used in examples *)

(** A source that replays a tape of numbers; reading past the end throws. *)
Definition tape : Random.Source (list Q) Q :=
  fun w =>
    match w with
    | [] => (Throw "end of tape", [])
    | u :: w' => (Normal u, w')
    end.

(** A source that counts its calls: the world is the number of calls made
    so far, and each call returns it. *)
Definition counter : Random.Source nat nat :=
  fun n => (Normal n, S n).

(** A source of doubles that replays a tape; reading past the end throws. *)
Definition tape64 : Random.Source (list float) float :=
  fun w =>
    match w with
    | [] => (Throw "end of tape", [])
    | u :: w' => (Normal u, w')
    end.

(** An exponentiation for the examples: [base ** n] for a natural number
    [n] by repeated multiplication, which is [1] for [n = 0], as the
    language requires of [Math.pow], and is exact on the powers of ten up to
    [10^22]; the exponents that are not natural numbers, which the examples
    do not use, give [NaN]. *)
Fixpoint power_nat (base : float) (n : nat) : float :=
  match n with
  | O => 1%float
  | S n' => (base * power_nat base n')%float
  end.

Definition power (base exponent : float) : float :=
  match Number.integer_of exponent with
  | Some z => power_nat base (Z.to_nat z)
  | None => nan
  end.

(** Two generators are behaviourally equivalent when [next] gives the same
    completion and the same world from every world. *)
Definition gen_equiv {W A : Type} (g1 g2 : Random.Generator W A) : Prop :=
  forall w, Random.next g1 w = Random.next g2 w.

(** ** Reference definitions

    What the specification says in words, as functions that do not follow
    the code: the theorems below compare the code with them. *)

(** [n] calls of [generator.next()], one after the other, each in the world
    the one before left; the results in the order of the calls. *)
Fixpoint replicate_next {W A : Type} (generator : Random.Generator W A)
    (n : nat) : Js W (list A) :=
  match n with
  | O => ret []
  | S n' =>
      x <- Random.next generator ;;
      xs <- replicate_next generator n' ;;
      ret (x :: xs)
  end.



(** The first entry of a list whose second component is at least
    [weight]. *)
Definition scan {A : Type} (weight : Q) (l : list (A * Q)) : option (A * Q) :=
  find (fun e => Qle_bool weight (snd e)) l.

(** The running sums of the weights on doubles, each sum rounded as the
    program rounds it. *)
Fixpoint running_sums64 {A : Type} (l : list (A * float)) (sum : float)
  : list (A * float) :=
  match l with
  | [] => []
  | e :: l' => (fst e, (snd e + sum)%float) :: running_sums64 l' (sum + snd e)%float
  end.

(** The first entry of a list whose second component compares at least
    [weight] ([NaN] compares with nothing). *)
Definition scan64 {A : Type} (weight : float) (l : list (A * float))
  : option (A * float) :=
  find (fun e => (weight <=? snd e)%float) l.

(** What the documentation of [next] describes: a method with one optional
    parameter, a transformer that is applied to the drawn value when it is
    passed. *)
Definition next_documented {W A : Type} (g : Random.Generator W A)
  : Function W (A -> Js W A) A :=
  function 1 (fun bound =>
                match bound with
                | Some transformer :: _ => a <- Random.source g ;; transformer a
                | _ => Random.source g
                end).

(** ** Further array operations, used by the examples *)

(** The elements of an array with holes, in the order of their indices. *)
Definition present {A : Type} (array : list (option A)) : list A :=
  flat_map (fun e => match e with Some x => [x] | None => [] end) array.

(** [array.reduce(f, init)]: the callback is called on the elements, holes
    are skipped. *)
Definition reduce {A B : Type} (f : B -> A -> B) (init : B)
    (array : list (option A)) : B :=
  fold_left f (present array) init.

(** [array.reduce(f)] without an initial value: the first element starts the
    accumulator; an array without elements is a [TypeError]. *)
Definition reduce1 {W A : Type} (f : A -> A -> A) (array : list (option A))
  : Js W A :=
  match present array with
  | [] => throw "TypeError: Reduce of empty array with no initial value"
  | x :: xs => ret (fold_left f xs x)
  end.




(** The string of the line feed character. *)
Definition newline : string := String (ascii_of_nat 10) EmptyString.

(** ** The example programs *)

Module Examples.

Section WithRandom.

Variable W : Type.

(** [Math.random], the source that the examples leave to the default. *)
Variable random : Random.Source W Q.

(** *** Three dice *)



Definition sum (set : list (option Q)) : Js W Q :=
  reduce1 (fun acc v => acc + v) set.



(** *** A grid of Xs and Os *)

Definition toStringGrid (grid : list (option (list (option bool)))) : string :=
  reduce
    (fun acc row =>
       ((acc ++ reduce (fun a cell => if cell : bool
                                      then a ++ "X" else a ++ "O")
                       EmptyString row)
        ++ newline)%string)
    EmptyString grid.

Definition boolListGenerator : Random.Generator W (list (option bool)) :=
  Random.list 10 (Random.boolean random).

Definition boolGridGenerator
  : Random.Generator W (list (option (list (option bool)))) :=
  Random.list 10 boolListGenerator.

Definition gridGenerator : Random.Generator W string :=
  Random.map boolGridGenerator (pure toStringGrid).

Definition gridGenerator2 : Random.Generator W string :=
  Random.map (Random.list 10 (Random.list 10 (Random.boolean random)))
             (pure toStringGrid).

(** *** Random strings *)










End WithRandom.

End Examples.

(** ** Predicates on sources and generators *)

(** A source of numbers of the unit interval that does not throw, as
    [Math.random] is. *)
Definition unit_source {W : Type} (source : Random.Source W Q) : Prop :=
  forall w, exists u w', source w = (Normal u, w') /\ 0 <= u < 1.

(** A generator that does not throw and whose values all satisfy [P]. *)
Definition always {W A : Type} (g : Random.Generator W A) (P : A -> Prop)
  : Prop :=
  forall w, exists a w', Random.next g w = (Normal a, w') /\ P a.


(** * Properties *)

Section EngineProperties.

Context {W : Type}.

Lemma bind_ret_r {A : Type} (c : Js W A) (w : W) :
  (x <- c ;; ret x) w = c w.
Proof.
  unfold bind, ret. destruct (c w) as [[a | message] w']; reflexivity.
Qed.

Lemma bind_assoc {A B C : Type} (c : Js W A) (f : A -> Js W B)
    (h : B -> Js W C) (w : W) :
  (y <- (x <- c ;; f x) ;; h y) w = (x <- c ;; y <- f x ;; h y) w.
Proof.
  unfold bind. destruct (c w) as [[a | message] w']; reflexivity.
Qed.

Lemma next_map {A B : Type} (g : Random.Generator W A) (f : A -> Js W B)
    (w w' : W) (a : A) :
  Random.next g w = (Normal a, w') ->
  Random.next (Random.map g f) w = f a w'.
Proof.
  unfold Random.next. simpl. unfold bind. intros ->. reflexivity.
Qed.

(** C1: [g.map(f).next()] is [f] applied to the value that [g]'s source
    draws (and the error of the source when it throws); mapping the identity
    gives a generator behaviourally equivalent to [g]; mapping [f] and then
    [h] is behaviourally equivalent to mapping their composition, for
    functions with effects and for functions without. *)
Theorem map_functor_laws {A B C : Type} (g : Random.Generator W A)
    (f : A -> Js W B) (h : B -> Js W C) (f0 : A -> B) (h0 : B -> C) :
  (forall w, Random.next (Random.map g f) w =
             match Random.next g w with
             | (Normal a, w') => f a w'
             | (Throw message, w') => (Throw message, w')
             end)
  /\ (forall w, Random.next (Random.map g (pure f0)) w =
                match Random.next g w with
                | (Normal a, w') => (Normal (f0 a), w')
                | (Throw message, w') => (Throw message, w')
                end)
  /\ gen_equiv (Random.map g (pure (fun x => x))) g
  /\ gen_equiv (Random.map (Random.map g f) h) (Random.map g (compose_js h f))
  /\ gen_equiv (Random.map (Random.map g (pure f0)) (pure h0))
               (Random.map g (pure (fun x => h0 (f0 x)))).
Proof.
  refine (conj _ (conj _ (conj _ (conj _ _)))); intros w;
    unfold Random.next; simpl.
  - unfold bind.
    destruct (Random.source g w) as [[a | message] w']; reflexivity.
  - unfold bind, pure, ret.
    destruct (Random.source g w) as [[a | message] w']; reflexivity.
  - apply bind_ret_r.
  - apply bind_assoc.
  - unfold bind, pure, ret.
    destruct (Random.source g w) as [[a | message] w']; reflexivity.
Qed.

(** C2: [g.then(f).next()] calls [g]'s source for a value [a], calls [f(a)]
    for a generator and returns the result of that generator's [next()],
    run in the world that the two calls left. *)
Theorem then_draws_next_of_selected {A B : Type} (g : Random.Generator W A)
    (f : A -> Js W (Random.Generator W B)) (f0 : A -> Random.Generator W B) :
  (forall w, Random.next (Random.then_ g f) w =
             match Random.next g w with
             | (Normal a, w1) =>
                 match f a w1 with
                 | (Normal g', w2) => Random.next g' w2
                 | (Throw message, w2) => (Throw message, w2)
                 end
             | (Throw message, w1) => (Throw message, w1)
             end)
  /\ (forall w, Random.next (Random.then_ g (pure f0)) w =
                match Random.next g w with
                | (Normal a, w1) => Random.next (f0 a) w1
                | (Throw message, w1) => (Throw message, w1)
                end).
Proof.
  split; intros w; unfold Random.next; simpl; unfold bind, pure, ret;
    destruct (Random.source g w) as [[a | message] w1]; try reflexivity;
    destruct (f a w1) as [[g' | message] w2]; reflexivity.
Qed.

(** C10: the function that [generate] stores as [next] lists no parameter,
    so a call binds its arguments to nothing: [g.next(t)], and [g.next]
    called with any arguments, is [g.next()], the draw of the source in the
    same world.  A transformer passed to [next] is not applied:
    [constant("67").next(x => x + " Bottles of beer")] returns ["67"], where
    the method that the documentation of [next] describes would return
    ["67 Bottles of beer"]. *)
Theorem next_ignores_argument {T A : Type} (g : Random.Generator W A) (t : T)
    (arguments : list T) (transformer : A -> Js W A) :
  call (Random.next_function g) [t] = Random.next g
  /\ call (Random.next_function g) arguments
     = call (Random.next_function (T := T) g) []
  /\ call (Random.next_function g) [transformer] = Random.next g
  /\ (forall w a w',
        Random.next g w = (Normal a, w') ->
        call (Random.next_function g) [transformer] w = (Normal a, w')
        /\ call (next_documented g) [transformer] w = transformer a w')
  /\ call (Random.next_function (Random.constant (W := unit) "67"%string))
          [pure (W := unit) (fun x => (x ++ " Bottles of beer")%string)] tt
     = (Normal "67"%string, tt)
  /\ call (next_documented (Random.constant (W := unit) "67"%string))
          [pure (W := unit) (fun x => (x ++ " Bottles of beer")%string)] tt
     = (Normal "67 Bottles of beer"%string, tt).
Proof.
  refine (conj _ (conj _ (conj _ (conj _ (conj _ _))))); try reflexivity.
  intros w a w' Hnext. split; [exact Hnext |].
  unfold call, next_documented. cbn. unfold bind.
  unfold Random.next in Hnext. rewrite Hnext. reflexivity.
Qed.

End EngineProperties.

(** The tests of [map] and [then]: [constant("X").map(x => x + "O")] and
    [constant("X").then(x => constant(x + "O"))] both produce ["XO"]. *)
Example map_test :
  Random.next (Random.map (Random.constant "X"%string)
                          (pure (fun x => (x ++ "O")%string))) tt
  = (Normal "XO"%string, tt).
Proof. reflexivity. Qed.

(** The tests of [constant] and [pair]. *)
Example constant_test :
  Random.next (Random.constant 3%Z) tt = (Normal 3%Z, tt).
Proof. reflexivity. Qed.

Example pair_test :
  Random.next (Random.pair (Random.constant "X"%string)
                           (Random.constant "O"%string)) tt
  = (Normal ("X"%string, "O"%string), tt).
Proof. reflexivity. Qed.

Example then_test :
  Random.next (Random.then_ (Random.constant "X"%string)
                 (pure (fun x => Random.constant (x ++ "O")%string))) tt
  = (Normal "XO"%string, tt).
Proof. reflexivity. Qed.

Section NumericProperties.

Context {W : Type}.

Variable source : Random.Source W Q.
Variables (w w' : W) (u : Q).
Hypothesis Hdraw : source w = (Normal u, w').





End NumericProperties.


Section ListProperties.

Context {W A : Type}.

Variable generator : Random.Generator W A.

Lemma array_set_end (result : list (option A)) (x : A) :
  array_set result (length result) x = result ++ [Some x].
Proof.
  unfold array_set. rewrite Nat.ltb_irrefl, Nat.sub_diag. reflexivity.
Qed.

Lemma list_loop_replicate (k : nat) :
  forall (i : nat) (result : list (option A)) (w : W),
    length result = i ->
    Random.list_loop (Z.of_nat (i + k)) generator i result w
    = (xs <- replicate_next generator k ;; ret (result ++ List.map Some xs)) w.
Proof.
  induction k as [| k IH]; intros i result w Hlen.
  - rewrite Random.list_loop_equation_1.
    destruct (Z_lt_dec (Z.of_nat i) (Z.of_nat (i + 0))) as [Hlt | Hge]; [lia |].
    simpl. unfold bind, ret. simpl. rewrite app_nil_r. reflexivity.
  - rewrite Random.list_loop_equation_1.
    destruct (Z_lt_dec (Z.of_nat i) (Z.of_nat (i + S k))) as [Hlt | Hge]; [| lia].
    simpl. unfold bind at 1 2.
    destruct (Random.next generator w) as [[x | message] w1] eqn:Hnext.
    + simpl. replace (i + S k)%nat with ((i + 1) + k)%nat by lia.
      rewrite IH.
      * unfold bind, ret.
        destruct (replicate_next generator k w1) as [[xs | message] w2];
          [| reflexivity].
        subst i. rewrite array_set_end, <- app_assoc. reflexivity.
      * subst i. rewrite array_set_end, length_app. simpl. lia.
    + reflexivity.
Qed.

Lemma next_list (n : nat) (w : W) :
  Random.next (Random.list (Z.of_nat n) generator) w
  = (xs <- replicate_next generator n ;; ret (List.map Some xs)) w.
Proof.
  unfold Random.next, Random.list. simpl.
  apply (@list_loop_replicate n 0%nat [] w). reflexivity.
Qed.

Lemma replicate_next_length (n : nat) :
  forall (w w' : W) (xs : list A),
    replicate_next generator n w = (Normal xs, w') -> length xs = n.
Proof.
  induction n as [| n IH]; intros w w' xs; simpl.
  - unfold ret. intros [= <- _]. reflexivity.
  - unfold bind, ret.
    destruct (Random.next generator w) as [[x | message] w1]; [| discriminate].
    destruct (replicate_next generator n w1) as [[ys | message] w2] eqn:Hrest;
      [| discriminate].
    intros [= <- _]. simpl. f_equal. eapply IH. exact Hrest.
Qed.

End ListProperties.

Lemma replicate_next_counter (n : nat) :
  forall c : nat,
    replicate_next (Random.generate counter) n c = (Normal (seq c n), (c + n)%nat).
Proof.
  induction n as [| n IH]; intros c; simpl.
  - unfold ret. rewrite Nat.add_0_r. reflexivity.
  - unfold bind, ret. unfold Random.next at 1. simpl.
    rewrite IH. simpl. f_equal. lia.
Qed.

(** C8: [list(n, gen).next()] makes [n] calls of [gen.next()] one after the
    other and returns their results in the order of the calls, as an array
    of length [n] without holes; with [n = 0] the array is empty and the
    world is untouched.  On a generator that counts its calls, started at
    [c], the result is [c, c+1, ..., c+n-1] and the count ends at [c + n].
    [list(10, constant("X")).next()] is ten copies of ["X"]. *)
Theorem list_calls_next_n_times {W A : Type} (gen : Random.Generator W A)
    (n : nat) :
  (forall w, Random.next (Random.list (Z.of_nat n) gen) w
             = (xs <- replicate_next gen n ;; ret (List.map Some xs)) w)
  /\ (forall w, match Random.next (Random.list (Z.of_nat n) gen) w with
                | (Normal result, _) =>
                    length result = n /\ Forall (fun e => e <> None) result
                | (Throw _, _) => True
                end)
  /\ (forall w, Random.next (Random.list 0 gen) w = (Normal [], w))
  /\ (forall c, Random.next (Random.list (Z.of_nat n) (Random.generate counter)) c
                = (Normal (List.map Some (seq c n)), (c + n)%nat))
  /\ Random.next (Random.list 10 (Random.constant "X"%string)) tt
     = (Normal (repeat (Some "X"%string) 10), tt).
Proof.
  refine (conj _ (conj _ (conj _ (conj _ _)))).
  - intros w. apply next_list.
  - intros w. rewrite next_list. unfold bind, ret.
    destruct (replicate_next gen n w) as [[xs | message] w1] eqn:Hxs; [| exact I].
    split.
    + rewrite length_map. eapply replicate_next_length. exact Hxs.
    + apply Forall_forall. intros e He. apply in_map_iff in He.
      destruct He as [x [<- _]]. discriminate.
  - intros w. reflexivity.
  - intros c. rewrite next_list. unfold bind, ret.
    rewrite replicate_next_counter. reflexivity.
  - reflexivity.
Qed.

Section WeightedProperties.

Context {A : Type}.

Lemma skipn_read (l : list (A * Q)) :
  forall (i : nat) (e : A * Q),
    nth_error l i = Some e -> skipn i l = e :: skipn (S i) l.
Proof.
  induction l as [| a l IH]; intros [| i] e H; simpl in *; try discriminate.
  - injection H as ->. reflexivity.
  - apply IH. exact H.
Qed.



Lemma getByWeight_scan {W : Type} (source : list (A * Q)) (weight : Q)
    (k : nat) :
  forall (i : nat) (w : W),
    (length source - i = k)%nat ->
    Random.getByWeight source weight i w
    = match scan weight (skipn i source) with
      | Some e => (Normal (fst e), w)
      | None => (Throw "Uhhh... bad!!!!", w)
      end.
Proof.
  induction k as [| k IH]; intros i w Hk;
    rewrite Random.getByWeight_equation_1;
    unfold Random.getByWeight_unfold_clause_1;
    destruct (lt_dec i (length source)) as [Hlt | Hge]; try lia.
  - rewrite skipn_all2 by lia. reflexivity.
  - unfold Random.getByWeight_unfold_clause_1_clause_1.
    destruct (nth_error source i) as [e |] eqn:Hread.
    + rewrite (skipn_read _ _ Hread). unfold scan. simpl.
      destruct (Qle_bool weight (snd e)); [reflexivity |].
      replace (i + 1)%nat with (S i) by lia.
      rewrite IH by lia. reflexivity.
    + apply nth_error_None in Hread. lia.
Qed.



Lemma scan_first (x : Q) (l : list (A * Q)) :
  forall e, scan x l = Some e ->
    exists i, nth_error l i = Some e /\ x <= snd e
              /\ forall j e', (j < i)%nat -> nth_error l j = Some e' ->
                               ~ x <= snd e'.
Proof.
  unfold scan.
  induction l as [| a l IH]; intros e H; simpl in H; [discriminate |].
  destruct (Qle_bool x (snd a)) eqn:Hcmp.
  - injection H as <-. exists 0%nat. split; [reflexivity |].
    split; [apply Qle_bool_iff; exact Hcmp |]. intros j e' Hj. lia.
  - destruct (IH e H) as [i [Hi [Hle Hfirst]]].
    exists (S i). split; [exact Hi |]. split; [exact Hle |].
    intros [| j] e' Hj Hread; simpl in Hread.
    + injection Hread as <-. intros Hle'. apply Qle_bool_iff in Hle'. congruence.
    + apply (Hfirst j e'); [lia | exact Hread].
Qed.

End WeightedProperties.

(** * Further properties of the library and of the example programs *)

Unset Implicit Arguments.

Section ThenLaws.

Context {W : Type}.

(** X1: [constant(a).then(f)] behaves as the generator [f(a)], and
    [g.then(constant)] behaves as [g]: [constant] is a unit of [then] on both
    sides. *)
Theorem then_constant_unit {A B : Type} (g : Random.Generator W A) (a : A)
    (f : A -> Js W (Random.Generator W B)) (f0 : A -> Random.Generator W B) :
  (forall w, Random.next (Random.then_ (Random.constant a) f) w
             = (g' <- f a ;; Random.next g') w)
  /\ gen_equiv (Random.then_ (Random.constant a) (pure f0)) (f0 a)
  /\ gen_equiv (Random.then_ g (pure (fun x => Random.constant x))) g.
Proof.
  refine (conj _ (conj _ _)); intros w; unfold Random.next; simpl.
  - reflexivity.
  - reflexivity.
  - unfold bind, pure, ret.
    destruct (Random.source g w) as [[x | message] w1]; reflexivity.
Qed.

(** X2: [g.then(f).then(h)] behaves as [g.then(x => f(x).then(h))], for
    functions with effects and for functions without. *)
Theorem then_associative {A B C : Type} (g : Random.Generator W A)
    (f : A -> Js W (Random.Generator W B))
    (h : B -> Js W (Random.Generator W C))
    (f0 : A -> Random.Generator W B) (h0 : B -> Random.Generator W C) :
  gen_equiv (Random.then_ (Random.then_ g f) h)
            (Random.then_ g (fun x => g' <- f x ;; ret (Random.then_ g' h)))
  /\ gen_equiv (Random.then_ (Random.then_ g (pure f0)) (pure h0))
               (Random.then_ g (pure (fun x => Random.then_ (f0 x) (pure h0)))).
Proof.
  split; intros w; unfold Random.next; simpl; unfold bind, pure, ret;
    destruct (Random.source g w) as [[x | message] w1]; try reflexivity.
  destruct (f x w1) as [[g' | message] w2]; reflexivity.
Qed.

(** X3: [g.map(f)] behaves as [g.then(x => constant(f(x)))]; a [then] after a
    [map] behaves as one [then] on the composed function; a [map] after a
    [then] can be moved into the generators that the [then] selects. *)
Theorem map_then_fusion {A B C : Type} (g : Random.Generator W A)
    (f : A -> B) (h : B -> Random.Generator W C)
    (s : A -> Random.Generator W B) (k : B -> Js W C) :
  gen_equiv (Random.map g (pure f))
            (Random.then_ g (pure (fun x => Random.constant (f x))))
  /\ gen_equiv (Random.then_ (Random.map g (pure f)) (pure h))
               (Random.then_ g (pure (fun x => h (f x))))
  /\ gen_equiv (Random.map (Random.then_ g (pure s)) k)
               (Random.then_ g (pure (fun x => Random.map (s x) k))).
Proof.
  refine (conj _ (conj _ _)); intros w; unfold Random.next; simpl;
    unfold bind, pure, ret;
    destruct (Random.source g w) as [[x | message] w1]; reflexivity.
Qed.

End ThenLaws.

Section Always.

Context {W : Type}.


Lemma always_constant {A : Type} (v : A) (P : A -> Prop) :
  P v -> always (@Random.constant W A v) P.
Proof.
  intros Hv w. exists v, w. split; [reflexivity | exact Hv].
Qed.

Lemma always_generate (source : Random.Source W Q) :
  unit_source source ->
  always (Random.generate source) (fun u => 0 <= u < 1).
Proof.
  intros Hsource w. destruct (Hsource w) as [u [w' [Hdraw Hu]]].
  exists u, w'. split; [exact Hdraw | exact Hu].
Qed.

Lemma always_map {A B : Type} (g : Random.Generator W A) (f : A -> Js W B)
    (P : A -> Prop) (P' : B -> Prop) :
  always g P ->
  (forall a w, P a -> exists b w', f a w = (Normal b, w') /\ P' b) ->
  always (Random.map g f) P'.
Proof.
  intros Hg Hf w. destruct (Hg w) as [a [w1 [Hnext Ha]]].
  destruct (Hf a w1 Ha) as [b [w2 [Hfa Hb]]].
  exists b, w2. split; [| exact Hb].
  erewrite next_map; [exact Hfa | exact Hnext].
Qed.

Lemma always_map_pure {A B : Type} (g : Random.Generator W A) (f : A -> B)
    (P : A -> Prop) (P' : B -> Prop) :
  always g P -> (forall a, P a -> P' (f a)) ->
  always (Random.map g (pure f)) P'.
Proof.
  intros Hg Hf. apply (always_map g (pure f) P P' Hg).
  intros a w Ha. exists (f a), w. split; [reflexivity | apply Hf; exact Ha].
Qed.

End Always.

Section FurtherNumeric.


End FurtherNumeric.







Lemma next_map_source_throws {W A B : Type} (g : Random.Generator W A)
    (f : A -> Js W B) (w w' : W) (message : string) :
  Random.next g w = (Throw message, w') ->
  Random.next (Random.map g f) w = (Throw message, w').
Proof.
  unfold Random.next. simpl. unfold bind. intros ->. reflexivity.
Qed.

(** X13: when the source throws, [float], [floatWithPrecision], [int] and
    [boolean] throw the same error and leave the world as the source left
    it, and so do [uniform] and [weighted] with a non-empty [rest]. *)
Theorem source_error_propagates {W A : Type} (source : Random.Source W Q)
    (w w' : W) (message : string) (min max : Q) (p : Z)
    (first : A) (rest : list A) (wfirst : A * Q) (wrest : list (A * Q)) :
  source w = (Throw message, w') ->
  Random.next (Random.float min max source) w = (Throw message, w')
  /\ Random.next (Random.floatWithPrecision min max p source) w
     = (Throw message, w')
  /\ Random.next (Random.int min max source) w = (Throw message, w')
  /\ Random.next (Random.boolean source) w = (Throw message, w')
  /\ (rest <> [] ->
      Random.next (Random.uniform first rest source) w = (Throw message, w'))
  /\ (wrest <> [] ->
      Random.next (Random.weighted wfirst wrest source) w
      = (Throw message, w')).
Proof.
  intros Hthrow.
  assert (Hfloat : forall a b,
             Random.next (Random.float a b source) w = (Throw message, w')).
  { intros a b. unfold Random.float. apply next_map_source_throws.
    exact Hthrow. }
  assert (Hprec : forall a b q,
             Random.next (Random.floatWithPrecision a b q source) w
             = (Throw message, w')).
  { intros a b q. unfold Random.floatWithPrecision.
    apply next_map_source_throws. apply Hfloat. }
  refine (conj (Hfloat _ _) (conj (Hprec _ _ _) (conj _ (conj _ (conj _ _))))).
  - unfold Random.int. apply Hprec.
  - unfold Random.boolean. apply next_map_source_throws. exact Hthrow.
  - intros Hrest. unfold Random.uniform.
    destruct rest as [| r rs]; [congruence |].
    change (length (r :: rs) =? 0)%nat with false. cbv iota.
    apply next_map_source_throws. unfold Random.int. apply Hprec.
  - intros Hrest. unfold Random.weighted.
    destruct wrest as [| r rs]; [congruence |].
    change (length (r :: rs) =? 0)%nat with false. cbv iota zeta.
    apply next_map_source_throws. apply Hfloat.
Qed.

Lemma source_error_propagates_witness :
  Random.next (Random.int 1 6 tape) [] = (Throw "end of tape", [])
  /\ Random.next (Random.uniform 1%nat [2%nat] tape) []
     = (Throw "end of tape", [])
  /\ Random.next (Random.weighted (1%nat, 1) [(2%nat, 1)] tape) []
     = (Throw "end of tape", []).
Proof.
  destruct (source_error_propagates (A := nat) tape [] [] "end of tape"
              1 6 0 1%nat [2%nat] (1%nat, 1) [(2%nat, 1)] eq_refl)
    as (_ & _ & Hint & _ & Huniform & Hweighted).
  split; [exact Hint |]. split.
  - apply Huniform. discriminate.
  - apply Hweighted. discriminate.
Defined.

Section FurtherWeighted.

Context {A : Type}.




End FurtherWeighted.

Section FurtherCumulative.

Context {A : Type}.



(** X16: [getByWeight], started at any index [i], leaves the world as it is
    and either returns the value of the first entry from [i] on whose sum is
    at least [weight], or throws its error when there is no such entry (as
    when [i] is past the end); the read of an entry never fails. *)
Theorem getByWeight_outcome {W : Type} (source : list (A * Q)) (weight : Q)
    (i : nat) (w : W) :
  (exists (j : nat) (e : A * Q),
      (i <= j)%nat
      /\ nth_error source j = Some e
      /\ weight <= snd e
      /\ (forall (j' : nat) (e' : A * Q),
            (i <= j' < j)%nat -> nth_error source j' = Some e' ->
            ~ weight <= snd e')
      /\ Random.getByWeight source weight i w = (Normal (fst e), w))
  \/ ((forall (j : nat) (e : A * Q),
          (i <= j)%nat -> nth_error source j = Some e -> ~ weight <= snd e)
      /\ Random.getByWeight source weight i w = (Throw "Uhhh... bad!!!!", w)).
Proof.
  rewrite (@getByWeight_scan A W source weight (length source - i) i w eq_refl).
  destruct (scan weight (skipn i source)) as [e |] eqn:Hscan.
  - left. destruct (@scan_first A _ _ e Hscan) as [k [Hk [Hle Hfirst]]].
    rewrite nth_error_skipn in Hk.
    exists (i + k)%nat, e. split; [lia |]. split; [exact Hk |].
    split; [exact Hle |]. split; [| reflexivity].
    intros j' e' Hj' Hread.
    apply (Hfirst (j' - i)%nat e'); [lia |].
    rewrite nth_error_skipn. replace (i + (j' - i))%nat with j' by lia.
    exact Hread.
  - right. split; [| reflexivity].
    intros j e Hj Hread Hle.
    pose proof (find_none _ _ Hscan e) as Hnone. cbv beta in Hnone.
    assert (Hin : In e (skipn i source)).
    { apply (nth_error_In _ (j - i)). rewrite nth_error_skipn.
      replace (i + (j - i))%nat with j by lia. exact Hread. }
    apply Hnone in Hin. apply Qle_bool_iff in Hle. congruence.
Qed.

End FurtherCumulative.


Lemma getByWeight_outcome_witness :
  let source := [("eins"%string, 10 # 1); ("zwei"%string, 30 # 1)] in
  (exists (j : nat) (e : string * Q),
      (1 <= j)%nat
      /\ nth_error source j = Some e
      /\ 5 # 1 <= snd e
      /\ (forall (j' : nat) (e' : string * Q),
            (1 <= j' < j)%nat -> nth_error source j' = Some e' ->
            ~ 5 # 1 <= snd e')
      /\ Random.getByWeight source (5 # 1) 1 tt = (Normal (fst e), tt))
  \/ ((forall (j : nat) (e : string * Q),
          (1 <= j)%nat -> nth_error source j = Some e -> ~ 5 # 1 <= snd e)
      /\ Random.getByWeight source (5 # 1) 1 tt
         = (Throw "Uhhh... bad!!!!", tt)).
Proof.
  intros source. apply (getByWeight_outcome source (5 # 1) 1 tt).
Defined.

Section FurtherList.

Context {W A : Type}.

Variable generator : Random.Generator W A.

Lemma replicate_next_app (n m : nat) :
  forall w,
    replicate_next generator (n + m) w
    = (xs <- replicate_next generator n ;;
       ys <- replicate_next generator m ;;
       ret (xs ++ ys)) w.
Proof.
  induction n as [| n IH]; intros w.
  - simpl. unfold bind, ret. simpl.
    destruct (replicate_next generator m w) as [[ys | message] w1];
      reflexivity.
  - simpl. unfold bind, ret.
    destruct (Random.next generator w) as [[x | message] w1]; [| reflexivity].
    rewrite IH. unfold bind, ret.
    destruct (replicate_next generator n w1) as [[xs | message] w2];
      [| reflexivity].
    destruct (replicate_next generator m w2) as [[ys | message] w3];
      reflexivity.
Qed.

(** X17: with a length that is zero or negative, [list] returns the empty
    array and leaves the world as it is: the generator is not called. *)
Theorem list_nonpositive_length (len : Z) (w : W) :
  (len <= 0)%Z ->
  Random.next (Random.list len generator) w = (Normal [], w).
Proof.
  intros Hlen. unfold Random.next, Random.list. simpl.
  rewrite Random.list_loop_equation_1.
  destruct (Z_lt_dec (Z.of_nat 0) len) as [Hlt | Hge]; [simpl in Hlt; lia |].
  reflexivity.
Qed.

(** X18: a list of [n + m] values is a list of [n] values followed by a list
    of [m] values drawn after them: [list(n + m, g)] behaves as
    [list(n, g)] and then [list(m, g)], with the two arrays concatenated. *)
Theorem list_additive (n m : nat) :
  forall w,
    Random.next (Random.list (Z.of_nat (n + m)) generator) w
    = (xs <- Random.next (Random.list (Z.of_nat n) generator) ;;
       ys <- Random.next (Random.list (Z.of_nat m) generator) ;;
       ret (xs ++ ys)) w.
Proof.
  intros w. rewrite (next_list generator (n + m) w).
  unfold bind, ret. rewrite replicate_next_app.
  rewrite (next_list generator n w). unfold bind, ret.
  destruct (replicate_next generator n w) as [[xs | message] w1];
    [| reflexivity].
  rewrite (next_list generator m w1). unfold bind, ret.
  destruct (replicate_next generator m w1) as [[ys | message] w2];
    [| reflexivity].
  rewrite map_app. reflexivity.
Qed.

(** X19: when the generator throws at one of the [n] calls, after [k < n]
    calls that returned, [list(n, g).next()] throws that error, in the world
    that the failed call left; the values drawn so far are lost. *)
Theorem list_propagates_throw (n k : nat) (w w1 w2 : W) (xs : list A)
    (message : string) :
  (k < n)%nat ->
  replicate_next generator k w = (Normal xs, w1) ->
  Random.next generator w1 = (Throw message, w2) ->
  Random.next (Random.list (Z.of_nat n) generator) w = (Throw message, w2).
Proof.
  intros Hk Hxs Hthrow.
  rewrite (next_list generator n w). unfold bind, ret.
  replace n with (k + S (n - k - 1))%nat by lia.
  rewrite replicate_next_app. unfold bind, ret. rewrite Hxs.
  simpl. unfold bind. rewrite Hthrow. reflexivity.
Qed.

Lemma always_list (n : nat) (P : A -> Prop) :
  always generator P ->
  always (Random.list (Z.of_nat n) generator)
         (fun result =>
            exists xs, result = List.map Some xs
                       /\ length xs = n /\ Forall P xs).
Proof.
  intros Hg.
  assert (Hrep : forall (m : nat) (w : W),
             exists xs w', replicate_next generator m w = (Normal xs, w')
                           /\ length xs = m /\ Forall P xs).
  { induction m as [| m IH]; intros w.
    - exists [], w. split; [reflexivity |]. split; [reflexivity | constructor].
    - destruct (Hg w) as [a [w1 [Hnext Ha]]].
      destruct (IH w1) as [xs [w2 [Hxs [Hlen Hall]]]].
      exists (a :: xs), w2. simpl. unfold bind, ret. rewrite Hnext, Hxs.
      split; [reflexivity |]. split; [simpl; lia | constructor; assumption]. }
  intros w. destruct (Hrep n w) as [xs [w' [Hxs [Hlen Hall]]]].
  exists (List.map Some xs), w'. split.
  - rewrite (next_list generator n w). unfold bind, ret. rewrite Hxs.
    reflexivity.
  - exists xs. split; [reflexivity |]. split; assumption.
Qed.

(** X20: when the generator never throws and all its values satisfy [P],
    [list(n, g)] never throws and returns an array of [n] elements, without
    holes, that all satisfy [P]. *)
Theorem list_always (n : nat) (P : A -> Prop) :
  always generator P ->
  always (Random.list (Z.of_nat n) generator)
         (fun result =>
            exists xs, result = List.map Some xs
                       /\ length xs = n /\ Forall P xs).
Proof.
  apply always_list.
Qed.

End FurtherList.

Lemma list_nonpositive_length_witness :
  Random.next (Random.list (-3) (Random.generate counter)) 7%nat
  = (Normal [], 7%nat).
Proof.
  apply (list_nonpositive_length (Random.generate counter) (-3) 7%nat). lia.
Defined.

Lemma list_propagates_throw_witness :
  Random.next (Random.list 3 (Random.generate tape)) [1 # 2; 1 # 3]
  = (Throw "end of tape", []).
Proof.
  apply (list_propagates_throw (Random.generate tape) 3 2
           [1 # 2; 1 # 3] [] [] [1 # 2; 1 # 3] "end of tape").
  - lia.
  - reflexivity.
  - reflexivity.
Defined.

Lemma list_always_witness :
  always (Random.list 4 (Random.generate counter))
         (fun result =>
            exists xs, result = List.map Some xs
                       /\ length xs = 4%nat /\ Forall (fun x => (0 <= x)%nat) xs).
Proof.
  apply (list_always (Random.generate counter) 4 (fun x => (0 <= x)%nat)).
  intros c. exists c, (S c). split; [reflexivity | lia].
Defined.

(** X21: [pair] calls the left generator first and the right one in the
    world the left one left; when the left generator throws the right one
    is not called.  [pair(g, g)] produces the two values that [list(2, g)]
    produces.  When neither generator throws, [pair] does not throw and
    pairs a value of the left with a value of the right. *)
Theorem pair_left_then_right {W A B : Type} (left : Random.Generator W A)
    (right : Random.Generator W B) (g : Random.Generator W A)
    (P : A -> Prop) (P' : B -> Prop) :
  (forall w, Random.next (Random.pair left right) w
             = match Random.next left w with
               | (Normal a, w1) =>
                   match Random.next right w1 with
                   | (Normal b, w2) => (Normal (a, b), w2)
                   | (Throw message, w2) => (Throw message, w2)
                   end
               | (Throw message, w1) => (Throw message, w1)
               end)
  /\ (forall w, Random.next (Random.pair g g) w
                = Random.next
                    (Random.map (Random.list 2 g)
                       (fun set =>
                          match set with
                          | [Some a; Some b] => ret (a, b)
                          | _ => throw "not two values"
                          end)) w)
  /\ (always left P -> always right P' ->
      always (Random.pair left right) (fun ab => P (fst ab) /\ P' (snd ab))).
Proof.
  refine (conj _ (conj _ _)).
  - intros w. unfold Random.next at 1. simpl. unfold bind, ret.
    destruct (Random.next left w) as [[a | message] w1]; [| reflexivity].
    destruct (Random.next right w1) as [[b | message] w2]; reflexivity.
  - intros w. pose proof (next_list g 2 w) as Hlist.
    change (Z.of_nat 2) with 2%Z in Hlist.
    cbn [replicate_next] in Hlist. unfold bind, ret in Hlist.
    unfold Random.pair. unfold Random.next at 1. cbn [Random.source].
    unfold bind at 1 2.
    destruct (Random.next g w) as [[a | message] w1].
    + destruct (Random.next g w1) as [[b | message] w2].
      * rewrite (@next_map W _ _ (Random.list 2 g) _ w w2 _ Hlist).
        reflexivity.
      * rewrite (next_map_source_throws (Random.list 2 g) _ w w2 message Hlist).
        reflexivity.
    + rewrite (next_map_source_throws (Random.list 2 g) _ w w1 message Hlist).
      reflexivity.
  - intros Hleft Hright w.
    destruct (Hleft w) as [a [w1 [Ha HP]]].
    destruct (Hright w1) as [b [w2 [Hb HP']]].
    exists (a, b), w2. split; [| split; assumption].
    unfold Random.next at 1. simpl. unfold bind, ret. rewrite Ha, Hb.
    reflexivity.
Qed.

Lemma pair_left_then_right_witness :
  always (Random.pair (@Random.constant unit string "X"%string)
                      (@Random.constant unit string "O"%string))
         (fun ab => fst ab = "X"%string /\ snd ab = "O"%string).
Proof.
  apply (proj2 (proj2 (pair_left_then_right
                         (@Random.constant unit string "X"%string)
                         (@Random.constant unit string "O"%string)
                         (@Random.constant unit string "X"%string)
                         (fun a => a = "X"%string)
                         (fun b => b = "O"%string)))).
  - apply always_constant. reflexivity.
  - apply always_constant. reflexivity.
Defined.

Section FurtherSeeded.

Variable sin : Q -> Q.

Lemma simpleSeeded_unit (seed : Q) :
  exists u,
    Random.simpleSeeded sin seed = (Normal u, sin seed * inject_Z 10000)
    /\ 0 <= u < 1.
Proof.
  eexists. split; [reflexivity |].
  pose proof (Qfloor_le (sin seed * inject_Z 10000)) as Hlo.
  pose proof (Qlt_floor (sin seed * inject_Z 10000)) as Hhi.
  rewrite inject_Z_plus in Hhi. change (inject_Z 1) with 1 in Hhi.
  split; lra.
Qed.

Lemma simpleSeeded_unit_source : unit_source (Random.simpleSeeded sin).
Proof.
  intros w. destruct (simpleSeeded_unit w) as [u [Hdraw Hu]].
  exists u, (sin w * inject_Z 10000). split; assumption.
Qed.


End FurtherSeeded.

Section FurtherAlways.

Context {W : Type}.



Lemma always_boolean (source : Random.Source W Q) :
  unit_source source -> always (Random.boolean source) (fun _ => True).
Proof.
  intros Hsource. unfold Random.boolean.
  apply (always_map_pure (Random.generate source) _ (fun u => 0 <= u < 1)).
  - apply always_generate. exact Hsource.
  - intros u _. exact I.
Qed.

End FurtherAlways.

Lemma present_map_Some {A : Type} (xs : list A) :
  present (List.map Some xs) = xs.
Proof.
  induction xs as [| x xs IH]; simpl; [| rewrite IH]; reflexivity.
Qed.

Lemma string_length_append (s1 s2 : string) :
  String.length (s1 ++ s2) = (String.length s1 + String.length s2)%nat.
Proof.
  induction s1 as [| c s1 IH]; simpl; [| rewrite IH]; reflexivity.
Qed.

Section ExampleProperties.

Context {W : Type}.

Variable random : Random.Source W Q.

Hypothesis Hrandom : unit_source random.




End ExampleProperties.



Lemma row_string_length (cells : list bool) :
  forall acc : string,
    String.length
      (fold_left (fun a cell => if cell : bool
                                then a ++ "X" else a ++ "O")%string
                 cells acc)
    = (String.length acc + length cells)%nat.
Proof.
  induction cells as [| cell cells IH]; intros acc; simpl; [lia |].
  rewrite IH. destruct cell; rewrite string_length_append; simpl; lia.
Qed.

Lemma toStringGrid_rows_length (m : nat)
    (rows : list (list (option bool))) :
  Forall (fun row => length (present row) = m) rows ->
  forall acc : string,
    String.length
      (fold_left
         (fun acc row =>
            ((acc ++ reduce (fun a cell => if cell : bool
                                           then a ++ "X" else a ++ "O")
                            EmptyString row)
             ++ newline)%string)
         rows acc)
    = (String.length acc + length rows * (m + 1))%nat.
Proof.
  induction 1 as [| row rows Hrow Hrows IH]; intros acc; simpl; [lia |].
  rewrite IH, !string_length_append. unfold reduce.
  rewrite row_string_length, Hrow. simpl. lia.
Qed.

(** X24: [toStringGrid] turns a grid of [n] rows of [m] cells each into a
    string of [n * (m + 1)] characters, each row followed by a line feed;
    with a source of numbers of the unit interval that does not throw, the
    grid generator of the example, in both ways it is written, never throws
    and produces a string of [110] characters. *)
Theorem grid_string_length {W : Type} (random : Random.Source W Q)
    (m : nat) (rows : list (list bool)) :
  unit_source random ->
  Forall (fun row => length row = m) rows ->
  String.length
    (Examples.toStringGrid
       (List.map Some (List.map (fun row => List.map Some row) rows)))
  = (length rows * (m + 1))%nat
  /\ always (Examples.gridGenerator random)
            (fun s => String.length s = 110%nat)
  /\ always (Examples.gridGenerator2 random)
            (fun s => String.length s = 110%nat).
Proof.
  intros Hrandom Hrows. split.
  - unfold Examples.toStringGrid. unfold reduce at 1.
    rewrite present_map_Some.
    rewrite (toStringGrid_rows_length m).
    + rewrite length_map. simpl. lia.
    + apply Forall_forall. intros row Hin. apply in_map_iff in Hin.
      destruct Hin as [cells [<- Hcells]]. rewrite present_map_Some.
      apply (proj1 (Forall_forall _ rows) Hrows). exact Hcells.
  - assert (Hgrid : always (Examples.gridGenerator random)
                           (fun s => String.length s = 110%nat)).
    { unfold Examples.gridGenerator, Examples.boolGridGenerator,
        Examples.boolListGenerator.
      apply (always_map_pure
               (Random.list 10 (Random.list 10 (Random.boolean random))) _
               (fun grid =>
                  exists xs, grid = List.map Some xs /\ length xs = 10%nat
                             /\ Forall (fun row =>
                                          exists cells,
                                            row = List.map Some cells
                                            /\ length cells = 10%nat
                                            /\ Forall (fun _ => True) cells)
                                       xs)).
      - apply (always_list (Random.list 10 (Random.boolean random)) 10).
        apply (always_list (Random.boolean random) 10).
        apply always_boolean. exact Hrandom.
      - intros grid [xs [-> [Hlen Hall]]].
        unfold Examples.toStringGrid. unfold reduce at 1.
        rewrite present_map_Some.
        rewrite (toStringGrid_rows_length 10).
        + rewrite Hlen. reflexivity.
        + apply Forall_forall. intros row Hin.
          destruct (proj1 (Forall_forall _ xs) Hall row Hin)
            as [cells [-> [Hcells _]]].
          rewrite present_map_Some. exact Hcells. }
    split; exact Hgrid.
Qed.

Lemma grid_string_length_witness :
  String.length
    (Examples.toStringGrid
       (List.map Some (List.map (fun row => List.map Some row)
                                [[true; false]; [false; false]])))
  = (2 * (2 + 1))%nat
  /\ always (Examples.gridGenerator (Random.simpleSeeded (fun x => x)))
            (fun s => String.length s = 110%nat).
Proof.
  destruct (grid_string_length (Random.simpleSeeded (fun x => x)) 2
              [[true; false]; [false; false]]
              (simpleSeeded_unit_source (fun x => x))
              ltac:(repeat constructor)) as [Hlength [Hgrid _]].
  split; [exact Hlength | exact Hgrid].
Defined.





Section StringExamples.

Context {W : Type}.

Variable random : Random.Source W Q.

Hypothesis Hrandom : unit_source random.



End StringExamples.





(** The grid of two rows [true, false] and [false, false] as a string. *)
Example toStringGrid_example :
  Examples.toStringGrid
    [Some [Some true; Some false]; Some [Some false; Some false]]
  = ("XO" ++ newline ++ "OO" ++ newline)%string.
Proof. reflexivity. Qed.

(** X27: a [constant] generator absorbs the combinators: mapping [f] over
    [constant(v)] behaves as [constant(f(v))], a pair of constants behaves
    as the constant pair, and [list(n, constant(v))] returns [n] copies of
    [v]; none of them reads or changes the world. *)
Theorem constant_absorbs {W A B : Type} (v : A) (v' : B) (f : A -> B)
    (n : nat) :
  gen_equiv (Random.map (@Random.constant W A v) (pure f))
            (Random.constant (f v))
  /\ gen_equiv (Random.pair (@Random.constant W A v) (Random.constant v'))
               (Random.constant (v, v'))
  /\ (forall w : W,
        Random.next (Random.list (Z.of_nat n) (Random.constant v)) w
        = (Normal (repeat (Some v) n), w)).
Proof.
  refine (conj _ (conj _ _)); try (intros w; reflexivity).
  intros w. rewrite (next_list (Random.constant v) n w).
  assert (Hrep : forall m, replicate_next (@Random.constant W A v) m w
                           = (Normal (repeat v m), w)).
  { induction m as [| m IH]; [reflexivity |].
    simpl. unfold bind, ret. unfold Random.next at 1. simpl. unfold ret.
    rewrite IH. reflexivity. }
  unfold bind, ret. rewrite Hrep. rewrite map_repeat. reflexivity.
Qed.

(** * Binary64 arithmetic

    The operations of the processor are specified on the integer
    representation of a double, a sign with a mantissa [m] and an exponent
    [e] for the number [m * 2^e].  This part derives what the factories
    need: what rounding to nearest gives, that a rounded number does not
    pass a double on its way, and that the numbers of naturals are exact. *)

Section Binary64Arithmetic.

Local Open Scope Z_scope.

(** digits *)
Lemma digits2_pos_spec (m : positive) :
  2 ^ (Zpos (digits2_pos m) - 1) <= Zpos m < 2 ^ Zpos (digits2_pos m).
Proof.
  induction m as [m IH | m IH |]; cbn [digits2_pos].
  - rewrite Pos2Z.inj_succ.
    replace (Z.succ (Zpos (digits2_pos m)) - 1) with (Z.succ (Zpos (digits2_pos m) - 1)) by lia.
    rewrite !Z.pow_succ_r by lia. lia.
  - rewrite Pos2Z.inj_succ.
    replace (Z.succ (Zpos (digits2_pos m)) - 1) with (Z.succ (Zpos (digits2_pos m) - 1)) by lia.
    rewrite !Z.pow_succ_r by lia. lia.
  - cbn. lia.
Qed.

Lemma Zdigits2_spec (m : Z) : 0 < m ->
  0 < Zdigits2 m /\ 2 ^ (Zdigits2 m - 1) <= m < 2 ^ Zdigits2 m.
Proof.
  destruct m as [| p | p]; try lia. intros _. cbn [Zdigits2].
  split; [lia | apply digits2_pos_spec].
Qed.

Lemma Zdigits2_unique (m d : Z) :
  2 ^ (d - 1) <= m < 2 ^ d -> 0 < d -> Zdigits2 m = d.
Proof.
  intros [Hlo Hhi] Hd.
  assert (0 < m) by (pose proof (Z.pow_pos_nonneg 2 (d - 1)); lia).
  destruct (Zdigits2_spec m H) as [Hpos [Hlo' Hhi']].
  destruct (Z.lt_trichotomy (Zdigits2 m) d) as [Hlt | [Heq | Hgt]]; [| exact Heq |].
  - assert (2 ^ Zdigits2 m <= 2 ^ (d - 1)) by (apply Z.pow_le_mono_r; lia). lia.
  - assert (2 ^ d <= 2 ^ (Zdigits2 m - 1)) by (apply Z.pow_le_mono_r; lia). lia.
Qed.

(** shifting *)
Definition located (M j : Z) (mrs : shr_record) : Prop :=
  let m := shr_m mrs in
  let rem := M - m * 2 ^ j in
  0 <= m /\ 0 <= rem < 2 ^ j /\
  match shr_r mrs, shr_s mrs with
  | false, false => rem = 0
  | false, true => 0 < 2 * rem < 2 ^ j
  | true, false => 2 * rem = 2 ^ j
  | true, true => 2 ^ j < 2 * rem
  end.

Lemma located_shr_1 M j mrs : 0 <= j ->
  located M j mrs -> located M (j + 1) (shr_1 mrs).
Proof.
  intros Hj. destruct mrs as [m r s]. unfold located. cbn [shr_m shr_r shr_s].
  rewrite Z.pow_add_r by lia. change (2 ^ 1) with 2.
  assert (0 < 2 ^ j) by (apply Z.pow_pos_nonneg; lia).
  intros (Hm & Hrem & Hloc).
  destruct m as [| [p | p |] | p]; try lia; cbn [shr_1 shr_m shr_r shr_s];
    destruct r, s; cbn [orb]; nia.
Qed.

Lemma iter_pos_ind {A : Type} (f : A -> A) (P : Z -> A -> Prop) :
  (forall j x, 0 <= j -> P j x -> P (j + 1) (f x)) ->
  forall k j x, 0 <= j -> P j x -> P (j + Zpos k) (iter_pos f k x).
Proof.
  intros Hstep. induction k as [k IH | k IH |]; intros j x Hj Hx; cbn [iter_pos].
  - replace (j + Z.pos k~1) with ((j + 1 + Zpos k) + Zpos k) by lia.
    apply IH; [lia |]. apply IH; [lia |]. apply Hstep; assumption.
  - replace (j + Z.pos k~0) with ((j + Zpos k) + Zpos k) by lia.
    apply IH; [lia |]. apply IH; assumption.
  - apply Hstep; assumption.
Qed.

Lemma located_shr M mrs e n : 0 <= n -> located M 0 mrs ->
  located M n (fst (shr mrs e n)) /\ snd (shr mrs e n) = e + n.
Proof.
  intros Hn H0. destruct n as [| p | p]; try lia; cbn [shr fst snd].
  - split; [exact H0 | lia].
  - split; [| reflexivity].
    apply (iter_pos_ind shr_1 (located M)) with (j := 0) (k := p); try lia; try assumption.
    intros; apply located_shr_1; assumption.
Qed.

Lemma located_exact M : 0 <= M -> located M 0 (shr_record_of_loc M loc_Exact).
Proof. intros. unfold located. cbn. lia. Qed.

(** the mantissa that round to nearest, ties to even chooses for M / 2^k *)
Definition nearest_even (M k : Z) : Z :=
  let q := M / 2 ^ k in
  let rem := M mod 2 ^ k in
  if 2 * rem <? 2 ^ k then q
  else if 2 * rem =? 2 ^ k then (if Z.even q then q else q + 1)
  else q + 1.

Lemma located_nearest_even M k mrs : 0 <= k -> located M k mrs ->
  round_nearest_even (shr_m mrs) (loc_of_shr_record mrs) = nearest_even M k.
Proof.
  intros Hk. destruct mrs as [m r s]. unfold located, nearest_even. cbn [shr_m shr_r shr_s].
  assert (0 < 2 ^ k) by (apply Z.pow_pos_nonneg; lia).
  intros (Hm & Hrem & Hloc).
  assert (Hq : M / 2 ^ k = m).
  { symmetry. apply Z.div_unique with (r := M - m * 2 ^ k); lia. }
  assert (Hr : M mod 2 ^ k = M - m * 2 ^ k).
  { symmetry. apply Z.mod_unique with (q := m); lia. }
  rewrite Hq, Hr.
  destruct r, s; cbn [loc_of_shr_record round_nearest_even];
    destruct (Z.ltb_spec (2 * (M - m * 2 ^ k)) (2 ^ k)); try lia;
    destruct (Z.eqb_spec (2 * (M - m * 2 ^ k)) (2 ^ k)); try lia; reflexivity.
Qed.

Lemma fexp64_eq e : fexp prec emax e = Z.max (e - 53) (-1074).
Proof. reflexivity. Qed.

Lemma nearest_even_bounds M k :
  M / 2 ^ k <= nearest_even M k <= M / 2 ^ k + 1.
Proof.
  unfold nearest_even.
  destruct (2 * (M mod 2 ^ k) <? 2 ^ k); [lia |].
  destruct (2 * (M mod 2 ^ k) =? 2 ^ k); [| lia].
  destruct (Z.even (M / 2 ^ k)); lia.
Qed.

Lemma nearest_even_exact M k : 0 <= k -> M mod 2 ^ k = 0 ->
  nearest_even M k = M / 2 ^ k.
Proof.
  intros Hk Hrem. unfold nearest_even. rewrite Hrem.
  assert (0 < 2 ^ k) by (apply Z.pow_pos_nonneg; lia).
  destruct (Z.ltb_spec (2 * 0) (2 ^ k)); [reflexivity | lia].
Qed.

(** What rounding the positive number [M * 2^E] gives, with sign [s]. *)
Definition rounded (s : bool) (M E : Z) : spec_float :=
  let e' := fexp prec emax (Zdigits2 M + E) in
  let m1 := nearest_even M (e' - E) in
  if m1 =? 0 then S754_zero s
  else if m1 =? 2 ^ 53
       then (if e' + 1 <=? 971 then S754_finite s (Z.to_pos (2 ^ 52)) (e' + 1)
             else S754_infinity s)
       else (if e' <=? 971 then S754_finite s (Z.to_pos m1) e'
             else S754_infinity s).

Lemma quotient_bounds M d k : 0 <= k -> k <= d - 1 ->
  2 ^ (d - 1) <= M < 2 ^ d ->
  2 ^ (d - 1 - k) <= M / 2 ^ k < 2 ^ (d - k).
Proof.
  intros Hk Hd [Hlo Hhi].
  assert (Hp : 0 < 2 ^ k) by (apply Z.pow_pos_nonneg; lia).
  split.
  - apply Z.div_le_lower_bound; [lia |].
    rewrite <- Z.pow_add_r by lia. replace (k + (d - 1 - k)) with (d - 1) by lia. exact Hlo.
  - apply Z.div_lt_upper_bound; [lia |].
    rewrite <- Z.pow_add_r by lia. replace (k + (d - k)) with d by lia. exact Hhi.
Qed.

Lemma binary_round_aux_rounded s M E : 0 < M ->
  E <= fexp prec emax (Zdigits2 M + E) ->
  binary_round_aux prec emax s M E loc_Exact = rounded s M E.
Proof.
  intros HM Hk.
  destruct (Zdigits2_spec M HM) as [Hd HMd].
  unfold binary_round_aux, rounded.
  set (e' := fexp prec emax (Zdigits2 M + E)) in *.
  unfold shr_fexp. fold e'.
  destruct (located_shr M (shr_record_of_loc M loc_Exact) E (e' - E)) as [Hloc Hexp];
    [lia | apply located_exact; lia |].
  destruct (shr (shr_record_of_loc M loc_Exact) E (e' - E)) as [mrs' e1] eqn:Hshr.
  cbn [fst snd] in Hloc, Hexp. subst e1.
  replace (E + (e' - E)) with e' by lia.
  rewrite (located_nearest_even M (e' - E) mrs') by (lia || assumption).
  set (m1 := nearest_even M (e' - E)).
  pose proof (nearest_even_bounds M (e' - E)) as Hm1. fold m1 in Hm1.
  assert (Hq0 : 0 <= M / 2 ^ (e' - E)) by (apply Z.div_pos; [lia | apply Z.pow_pos_nonneg; lia]).
  assert (Hcases :
    (m1 = 0 /\ e' = -1074) \/
    (0 < m1 /\ m1 < 2 ^ 53 /\ fexp prec emax (Zdigits2 m1 + e') = e') \/
    (m1 = 2 ^ 53 /\ -1074 <= e')).
  { rewrite fexp64_eq.
    assert (He' : e' = Z.max (Zdigits2 M + E - 53) (-1074)) by reflexivity.
    clearbody e'.
    destruct (Z.max_spec (Zdigits2 M + E - 53) (-1074)) as [[Hlt Hmax] | [Hge Hmax]];
      rewrite Hmax in He'; subst e'.
    - (* subnormal *)
      assert (Hq : M / 2 ^ (-1074 - E) < 2 ^ 52).
      { destruct (Z_le_gt_dec (Zdigits2 M) (-1074 - E)) as [Hsmall | Hbig].
        - rewrite Z.div_small; [reflexivity |].
          split; [lia |].
          assert (2 ^ Zdigits2 M <= 2 ^ (-1074 - E)) by (apply Z.pow_le_mono_r; lia). lia.
        - pose proof (quotient_bounds M (Zdigits2 M) (-1074 - E)) as Hb.
          assert (2 ^ (Zdigits2 M - (-1074 - E)) <= 2 ^ 52) by (apply Z.pow_le_mono_r; lia).
          lia. }
      destruct (Z.eq_dec m1 0) as [Hz | Hnz]; [left; split; [exact Hz | reflexivity] |].
      right; left. split; [lia |]. split; [lia |].
      assert (Zdigits2 m1 <= 53).
      { destruct (Zdigits2_spec m1) as [Hd1 [Hlo1 Hhi1]]; [lia |].
        destruct (Z_le_gt_dec (Zdigits2 m1) 53); [assumption |].
        assert (2 ^ 53 <= 2 ^ (Zdigits2 m1 - 1)) by (apply Z.pow_le_mono_r; lia). lia. }
      lia.
    - (* normal *)
      pose proof (quotient_bounds M (Zdigits2 M) (Zdigits2 M + E - 53 - E)) as Hb.
      replace (Zdigits2 M - 1 - (Zdigits2 M + E - 53 - E)) with 52 in Hb by lia.
      replace (Zdigits2 M - (Zdigits2 M + E - 53 - E)) with 53 in Hb by lia.
      destruct (Z.eq_dec m1 (2 ^ 53)) as [Hc | Hnc]; [right; right; split; [exact Hc | lia] |].
      right; left.
      assert (2 ^ 52 <= m1 < 2 ^ 53) by lia.
      rewrite (Zdigits2_unique m1 53) by (change (2 ^ (53 - 1)) with (2 ^ 52); lia).
      lia. }
  destruct Hcases as [[Hz He] | [(Hpos & Hlt & Hfexp) | [Hc He]]].
  - rewrite Hz. cbn [Zdigits2]. rewrite He. cbn. reflexivity.
  - rewrite Hfexp, Z.sub_diag. cbn [shr shr_record_of_loc shr_m].
    destruct (Z.eqb_spec m1 0); [lia |].
    destruct (Z.eqb_spec m1 (2 ^ 53)); [lia |].
    destruct m1 as [| p | p]; try lia. reflexivity.
  - rewrite Hc. change (2 ^ 53 =? 0) with false. rewrite Z.eqb_refl.
    change (Zdigits2 (2 ^ 53)) with 54.
    rewrite fexp64_eq.
    replace (Z.max (54 + e' - 53) (-1074) - e') with 1 by lia.
    cbn [shr]. replace (e' + 1 <=? 971) with (e' + 1 <=? emax - prec) by reflexivity.
    reflexivity.
Qed.

Lemma canonical_iff m e :
  canonical_mantissa prec emax m e = true <-> fexp prec emax (Zpos (digits2_pos m) + e) = e.
Proof. unfold canonical_mantissa. apply Z.eqb_eq. Qed.

Lemma bounded_iff m e :
  bounded prec emax m e = true <->
  fexp prec emax (Zpos (digits2_pos m) + e) = e /\ e <= 971.
Proof.
  unfold bounded. rewrite andb_true_iff, canonical_iff, Z.leb_le.
  change (emax - prec) with 971. reflexivity.
Qed.

(** A canonical mantissa has at most 53 digits; it has 53 unless the
    exponent is the least one. *)
Lemma canonical_digits m e : fexp prec emax (Zpos (digits2_pos m) + e) = e ->
  Zpos m < 2 ^ 53 /\ -1074 <= e /\ (2 ^ 52 <= Zpos m \/ e = -1074).
Proof.
  rewrite fexp64_eq. intros H.
  pose proof (digits2_pos_spec m) as [Hlo Hhi].
  assert (Hd : Zpos (digits2_pos m) <= 53) by lia.
  split.
  { assert (2 ^ Zpos (digits2_pos m) <= 2 ^ 53) by (apply Z.pow_le_mono_r; lia). lia. }
  split; [lia |].
  destruct (Z.eq_dec e (-1074)) as [He | He]; [right; exact He | left].
  assert (Zpos (digits2_pos m) = 53) by lia.
  replace 52 with (Zpos (digits2_pos m) - 1) by lia. exact Hlo.
Qed.

Lemma Zdigits2_mul_pow2 m k : 0 < m -> 0 <= k ->
  Zdigits2 (m * 2 ^ k) = Zdigits2 m + k.
Proof.
  intros Hm Hk. destruct (Zdigits2_spec m Hm) as [Hd [Hlo Hhi]].
  assert (0 < 2 ^ k) by (apply Z.pow_pos_nonneg; lia).
  apply Zdigits2_unique; [| lia].
  replace (Zdigits2 m + k - 1) with (Zdigits2 m - 1 + k) by lia.
  rewrite !Z.pow_add_r by lia. nia.
Qed.

(** Rounding a number that a canonical pair represents gives that pair. *)
Lemma rounded_exact s M E m e :
  fexp prec emax (Zpos (digits2_pos m) + e) = e -> e <= 971 -> E <= e ->
  M = Zpos m * 2 ^ (e - E) ->
  rounded s M E = S754_finite s m e.
Proof.
  intros Hcan Hmax HE HM.
  assert (Hp : 0 < 2 ^ (e - E)) by (apply Z.pow_pos_nonneg; lia).
  assert (Hd : Zdigits2 M + E = Zpos (digits2_pos m) + e).
  { rewrite HM, Zdigits2_mul_pow2 by lia. cbn [Zdigits2]. lia. }
  unfold rounded. rewrite Hd, Hcan.
  rewrite nearest_even_exact; [| lia | rewrite HM; apply Z.mod_mul; lia].
  rewrite HM, Z.div_mul by lia.
  destruct (canonical_digits m e Hcan) as [Hlt _].
  destruct (Z.eqb_spec (Zpos m) 0); [lia |].
  destruct (Z.eqb_spec (Zpos m) (2 ^ 53)); [lia |].
  destruct (Z.leb_spec e 971); [| lia].
  reflexivity.
Qed.

Lemma binary_round_aux_exact s M E m e :
  fexp prec emax (Zpos (digits2_pos m) + e) = e -> e <= 971 -> E <= e ->
  M = Zpos m * 2 ^ (e - E) ->
  binary_round_aux prec emax s M E loc_Exact = S754_finite s m e.
Proof.
  intros Hcan Hmax HE HM.
  assert (Hp : 0 < 2 ^ (e - E)) by (apply Z.pow_pos_nonneg; lia).
  rewrite binary_round_aux_rounded.
  - eapply rounded_exact; eassumption.
  - lia.
  - rewrite HM, Zdigits2_mul_pow2 by lia. cbn [Zdigits2].
    replace (Z.pos (digits2_pos m) + (e - E) + E) with (Z.pos (digits2_pos m) + e) by lia.
    lia.
Qed.

Lemma iter_xO m k : Zpos (Pos.iter xO m k) = Zpos m * 2 ^ Zpos k.
Proof.
  revert m. induction k as [| k IH] using Pos.peano_ind; intros m.
  - cbn. lia.
  - rewrite Pos.iter_succ, Pos2Z.inj_succ, Z.pow_succ_r by lia.
    rewrite Pos2Z.inj_xO, IH. lia.
Qed.

Lemma shl_align_spec m e e' :
  let '(m', e'') := shl_align m e e' in
  e'' = Z.min e e' /\ Zpos m' = Zpos m * 2 ^ (e - e'').
Proof.
  unfold shl_align. destruct (e' - e) as [| d | d] eqn:Hd.
  - split; [lia |]. rewrite Z.sub_diag. cbn. lia.
  - split; [lia |]. rewrite Z.sub_diag. cbn. lia.
  - split; [lia |]. rewrite iter_xO. f_equal. f_equal. lia.
Qed.

(** What rounding the number of a canonical pair gives, from any
    representation of it with a smaller exponent. *)
Lemma binary_round_exact s M E m e :
  fexp prec emax (Zpos (digits2_pos m) + e) = e -> e <= 971 -> E <= e ->
  Zpos M = Zpos m * 2 ^ (e - E) ->
  binary_round prec emax s M E = S754_finite s m e.
Proof.
  intros Hcan Hmax HE HM. unfold binary_round.
  assert (Hp : 0 < 2 ^ (e - E)) by (apply Z.pow_pos_nonneg; lia).
  assert (Hd : Zpos (digits2_pos M) + E = Zpos (digits2_pos m) + e).
  { change (Zpos (digits2_pos M)) with (Zdigits2 (Zpos M)).
    rewrite HM, Zdigits2_mul_pow2 by lia. cbn [Zdigits2]. lia. }
  rewrite Hd, Hcan.
  pose proof (shl_align_spec M E e) as Hal.
  destruct (shl_align M E e) as [mz ez]. destruct Hal as [Hez Hmz].
  apply binary_round_aux_exact; try assumption; try lia.
  rewrite Hmz, HM, <- Z.mul_assoc, <- Z.pow_add_r by lia.
  f_equal. f_equal. lia.
Qed.

Lemma binary_round_exact_shl s M E m e :
  fexp prec emax (Zpos (digits2_pos m) + e) = e -> e <= 971 -> e <= E ->
  Zpos m = Zpos M * 2 ^ (E - e) ->
  binary_round prec emax s M E = S754_finite s m e.
Proof.
  intros Hcan Hmax HE HM. unfold binary_round.
  assert (Hp : 0 < 2 ^ (E - e)) by (apply Z.pow_pos_nonneg; lia).
  assert (Hd : Zpos (digits2_pos M) + E = Zpos (digits2_pos m) + e).
  { change (Zpos (digits2_pos m)) with (Zdigits2 (Zpos m)).
    rewrite HM, Zdigits2_mul_pow2 by lia. cbn [Zdigits2]. lia. }
  rewrite Hd, Hcan.
  pose proof (shl_align_spec M E e) as Hal.
  destruct (shl_align M E e) as [mz ez]. destruct Hal as [Hez Hmz].
  apply binary_round_aux_exact; try assumption; try lia.
  replace ez with e by lia. rewrite Z.sub_diag, Z.mul_1_r.
  rewrite Hmz, HM. f_equal. f_equal. lia.
Qed.

(** The canonical pair of a positive integer below [2^53]. *)
Definition mantissa_of (n : Z) : positive := Z.to_pos (n * 2 ^ (53 - Zdigits2 n)).
Definition exponent_of (n : Z) : Z := Zdigits2 n - 53.

Lemma Zdigits2_le_53 n : 0 < n < 2 ^ 53 -> 0 < Zdigits2 n <= 53.
Proof.
  intros [Hpos Hlt]. destruct (Zdigits2_spec n Hpos) as [Hd [Hlo Hhi]].
  split; [exact Hd |].
  destruct (Z_le_gt_dec (Zdigits2 n) 53); [assumption |].
  assert (2 ^ 53 <= 2 ^ (Zdigits2 n - 1)) by (apply Z.pow_le_mono_r; lia). lia.
Qed.

Lemma mantissa_of_spec n : 0 < n < 2 ^ 53 ->
  Zpos (mantissa_of n) = n * 2 ^ (53 - Zdigits2 n) /\
  2 ^ 52 <= Zpos (mantissa_of n) < 2 ^ 53 /\
  fexp prec emax (Zpos (digits2_pos (mantissa_of n)) + exponent_of n) = exponent_of n.
Proof.
  intros Hn. pose proof (Zdigits2_le_53 n Hn) as Hd.
  destruct (Zdigits2_spec n) as [_ [Hlo Hhi]]; [lia |].
  assert (Hp : 0 < 2 ^ (53 - Zdigits2 n)) by (apply Z.pow_pos_nonneg; lia).
  assert (Hm : Zpos (mantissa_of n) = n * 2 ^ (53 - Zdigits2 n)).
  { unfold mantissa_of. rewrite Z2Pos.id; [reflexivity | nia]. }
  assert (Hdig : Zdigits2 (n * 2 ^ (53 - Zdigits2 n)) = 53).
  { rewrite Zdigits2_mul_pow2 by lia. lia. }
  split; [exact Hm |]. split.
  - rewrite Hm. destruct (Zdigits2_spec (n * 2 ^ (53 - Zdigits2 n))) as [_ Hb]; [nia |].
    rewrite Hdig in Hb. exact Hb.
  - change (Zpos (digits2_pos (mantissa_of n))) with (Zdigits2 (Zpos (mantissa_of n))).
    rewrite Hm, Hdig, fexp64_eq. unfold exponent_of. lia.
Qed.

Lemma binary_normalize_nat n : 0 < n < 2 ^ 53 ->
  binary_normalize prec emax n 0 false =
  S754_finite false (mantissa_of n) (exponent_of n).
Proof.
  intros Hn. destruct (mantissa_of_spec n Hn) as (Hm & Hb & Hcan).
  pose proof (Zdigits2_le_53 n Hn) as Hd.
  destruct n as [| p | p]; try lia. cbn [binary_normalize].
  apply binary_round_exact_shl; try assumption; unfold exponent_of; try lia.
  rewrite Hm. f_equal. f_equal. lia.
Qed.

Lemma SFleb_finite m1 e1 m2 e2 :
  SFleb (S754_finite false m1 e1) (S754_finite false m2 e2) = true <->
  e1 < e2 \/ (e1 = e2 /\ Zpos m1 <= Zpos m2).
Proof.
  unfold SFleb, SFcompare.
  destruct (Z.compare_spec e1 e2) as [He | He | He].
  - change (Pos.compare_cont Eq m1 m2) with (Pos.compare m1 m2).
    destruct (Pos.compare_spec m1 m2) as [Hm | Hm | Hm]; split; intros H;
      try discriminate; try reflexivity; try lia.
  - split; intros; [lia | reflexivity].
  - split; intros H; [discriminate | lia].
Qed.

Lemma SFltb_finite m1 e1 m2 e2 :
  SFltb (S754_finite false m1 e1) (S754_finite false m2 e2) = true <->
  e1 < e2 \/ (e1 = e2 /\ Zpos m1 < Zpos m2).
Proof.
  unfold SFltb, SFcompare.
  destruct (Z.compare_spec e1 e2) as [He | He | He].
  - change (Pos.compare_cont Eq m1 m2) with (Pos.compare m1 m2).
    destruct (Pos.compare_spec m1 m2) as [Hm | Hm | Hm]; split; intros H;
      try discriminate; try reflexivity; try lia.
  - split; intros; [lia | reflexivity].
  - split; intros H; [discriminate | lia].
Qed.

Lemma fexp64_mono a b : a <= b -> fexp prec emax a <= fexp prec emax b.
Proof. rewrite !fexp64_eq. lia. Qed.

(** The digits of a number below a multiple of a power of two. *)
Lemma digits_le_of_value M E mb eb : 0 < M -> E <= eb ->
  M <= Zpos mb * 2 ^ (eb - E) ->
  Zdigits2 M + E <= Zpos (digits2_pos mb) + eb.
Proof.
  intros HM HE Hle.
  destruct (Zdigits2_spec M HM) as [Hd [Hlo Hhi]].
  pose proof (digits2_pos_spec mb) as [Hlob Hhib].
  destruct (Z_le_gt_dec (Zdigits2 M + E) (Zpos (digits2_pos mb) + eb)) as [H | H];
    [exact H | exfalso].
  assert (Hp : 2 ^ (Zpos (digits2_pos mb) + (eb - E)) <= 2 ^ (Zdigits2 M - 1))
    by (apply Z.pow_le_mono_r; lia).
  rewrite Z.pow_add_r in Hp by lia.
  assert (0 < 2 ^ (eb - E)) by (apply Z.pow_pos_nonneg; lia).
  nia.
Qed.

(** Rounding never passes a double that is at or above the number. *)
Lemma rounded_le M E mb eb : 0 < M ->
  E <= fexp prec emax (Zdigits2 M + E) ->
  fexp prec emax (Zpos (digits2_pos mb) + eb) = eb -> eb <= 971 -> E <= eb ->
  M <= Zpos mb * 2 ^ (eb - E) ->
  SFleb (rounded false M E) (S754_finite false mb eb) = true.
Proof.
  intros HM Hk Hcan Hmax HE Hle.
  pose proof (digits_le_of_value M E mb eb HM HE Hle) as Hdig.
  pose proof (fexp64_mono _ _ Hdig) as Hexp. rewrite Hcan in Hexp.
  destruct (canonical_digits mb eb Hcan) as (Hmb & Hemin & Hnormal).
  unfold rounded.
  set (e' := fexp prec emax (Zdigits2 M + E)) in *.
  set (m1 := nearest_even M (e' - E)).
  assert (HP : 0 < 2 ^ (e' - E)) by (apply Z.pow_pos_nonneg; lia).
  assert (HR : 0 < 2 ^ (eb - e')) by (apply Z.pow_pos_nonneg; lia).
  assert (Hsplit : 2 ^ (eb - E) = 2 ^ (eb - e') * 2 ^ (e' - E)).
  { rewrite <- Z.pow_add_r by lia. f_equal. lia. }
  assert (Hm1 : 0 <= m1 <= Zpos mb * 2 ^ (eb - e')).
  { pose proof (nearest_even_bounds M (e' - E)) as Hb. fold m1 in Hb.
    assert (0 <= M / 2 ^ (e' - E)) by (apply Z.div_pos; lia).
    split; [lia |].
    destruct (Z.eq_dec (M mod 2 ^ (e' - E)) 0) as [Hz | Hnz].
    - unfold m1. rewrite nearest_even_exact by (lia || assumption).
      apply Z.div_le_upper_bound; [lia |]. rewrite Hsplit in Hle. lia.
    - assert (M / 2 ^ (e' - E) < Zpos mb * 2 ^ (eb - e')); [| lia].
      apply Z.div_lt_upper_bound; [lia |].
      assert (M <> Zpos mb * 2 ^ (eb - e') * 2 ^ (e' - E)).
      { intros Heq. apply Hnz. rewrite Heq. apply Z.mod_mul. lia. }
      rewrite Hsplit in Hle. lia. }
  destruct (Z.eqb_spec m1 0) as [Hz | Hnz]; [reflexivity |].
  destruct (Z.eqb_spec m1 (2 ^ 53)) as [Hc | Hnc].
  - assert (He : e' + 1 <= eb).
    { destruct (Z_le_gt_dec (e' + 1) eb); [assumption |].
      replace (eb - e') with 0 in Hm1 by lia. change (2 ^ 0) with 1 in Hm1. lia. }
    destruct (Z.leb_spec (e' + 1) 971); [| lia].
    apply SFleb_finite.
    destruct (Z.eq_dec (e' + 1) eb) as [Heq | Hne]; [right | left; lia].
    split; [exact Heq |].
    replace (eb - e') with 1 in Hm1 by lia. change (2 ^ 1) with 2 in Hm1.
    rewrite Z2Pos.id by reflexivity. lia.
  - destruct (Z.leb_spec e' 971); [| lia].
    apply SFleb_finite.
    destruct (Z.eq_dec e' eb) as [Heq | Hne]; [right | left; lia].
    split; [exact Heq |].
    replace (eb - e') with 0 in Hm1 by lia. change (2 ^ 0) with 1 in Hm1.
    rewrite Z2Pos.id by lia. lia.
Qed.

(** The product of two canonical mantissas is shifted to the right, never
    to the left, when it is rounded. *)
Lemma product_shift mx ex my ey :
  fexp prec emax (Zpos (digits2_pos mx) + ex) = ex ->
  fexp prec emax (Zpos (digits2_pos my) + ey) = ey ->
  ex + ey <= fexp prec emax (Zdigits2 (Zpos (mx * my)) + (ex + ey)).
Proof.
  intros Hx Hy.
  destruct (canonical_digits mx ex Hx) as (Hmx & Hex & Hnx).
  destruct (canonical_digits my ey Hy) as (Hmy & Hey & Hny).
  destruct (Zdigits2_spec (Zpos (mx * my))) as [Hd [Hlo Hhi]]; [lia |].
  rewrite fexp64_eq.
  assert (Hbig : forall a b, 2 ^ 52 <= a -> 0 < b -> a * b = Zpos (mx * my) ->
                 53 <= Zdigits2 (Zpos (mx * my))).
  { intros a b Ha Hb Hab.
    destruct (Z_le_gt_dec 53 (Zdigits2 (Zpos (mx * my)))); [assumption |].
    assert (2 ^ Zdigits2 (Zpos (mx * my)) <= 2 ^ 52) by (apply Z.pow_le_mono_r; lia).
    nia. }
  destruct Hnx as [Hnx | Hnx].
  - specialize (Hbig (Zpos mx) (Zpos my) Hnx). rewrite Pos2Z.inj_mul in *. lia.
  - destruct Hny as [Hny | Hny].
    + specialize (Hbig (Zpos my) (Zpos mx) Hny). rewrite Pos2Z.inj_mul in *. lia.
    + lia.
Qed.

Lemma SFmul_finite sx mx ex sy my ey :
  fexp prec emax (Zpos (digits2_pos mx) + ex) = ex ->
  fexp prec emax (Zpos (digits2_pos my) + ey) = ey ->
  SFmul prec emax (S754_finite sx mx ex) (S754_finite sy my ey) =
  rounded (xorb sx sy) (Zpos (mx * my)) (ex + ey).
Proof.
  intros Hx Hy. cbn [SFmul].
  apply binary_round_aux_rounded; [lia |].
  apply product_shift; assumption.
Qed.

(** The quotient that is rounded has 53 digits, or fewer at the least
    exponent. *)
Lemma quotient_cases M E : 0 < M ->
  E <= fexp prec emax (Zdigits2 M + E) ->
  let e' := fexp prec emax (Zdigits2 M + E) in
  (e' = Zdigits2 M + E - 53 /\ 2 ^ 52 <= M / 2 ^ (e' - E) < 2 ^ 53) \/
  (e' = -1074 /\ 0 <= M / 2 ^ (e' - E) < 2 ^ 52).
Proof.
  intros HM Hk e'. subst e'. rewrite fexp64_eq in *.
  destruct (Zdigits2_spec M HM) as [Hd HMd].
  destruct (Z.max_spec (Zdigits2 M + E - 53) (-1074)) as [[Hlt Hmax] | [Hge Hmax]];
    rewrite Hmax in *.
  - right. split; [reflexivity |].
    split; [apply Z.div_pos; [lia | apply Z.pow_pos_nonneg; lia] |].
    destruct (Z_le_gt_dec (Zdigits2 M) (-1074 - E)) as [Hsmall | Hbig].
    + rewrite Z.div_small; [reflexivity |].
      split; [lia |].
      assert (2 ^ Zdigits2 M <= 2 ^ (-1074 - E)) by (apply Z.pow_le_mono_r; lia). lia.
    + pose proof (quotient_bounds M (Zdigits2 M) (-1074 - E)) as Hb.
      assert (2 ^ (Zdigits2 M - (-1074 - E)) <= 2 ^ 52) by (apply Z.pow_le_mono_r; lia).
      lia.
  - left. split; [reflexivity |].
    pose proof (quotient_bounds M (Zdigits2 M) (Zdigits2 M + E - 53 - E)) as Hb.
    replace (Zdigits2 M - 1 - (Zdigits2 M + E - 53 - E)) with 52 in Hb by lia.
    replace (Zdigits2 M - (Zdigits2 M + E - 53 - E)) with 53 in Hb by lia.
    lia.
Qed.

Lemma nearest_even_down M k : 0 <= k -> 2 * (M mod 2 ^ k) < 2 ^ k ->
  nearest_even M k = M / 2 ^ k.
Proof.
  intros Hk H. unfold nearest_even.
  destruct (Z.ltb_spec (2 * (M mod 2 ^ k)) (2 ^ k)); [reflexivity | lia].
Qed.

Lemma Zdigits2_le M d : 0 < M -> M < 2 ^ d -> 0 <= d -> Zdigits2 M <= d.
Proof.
  intros HM Hlt Hd. destruct (Zdigits2_spec M HM) as [_ [Hlo _]].
  destruct (Z_le_gt_dec (Zdigits2 M) d); [assumption |].
  assert (2 ^ d <= 2 ^ (Zdigits2 M - 1)) by (apply Z.pow_le_mono_r; lia). lia.
Qed.

(** A double [x] of the normal range above the least exponent, multiplied
    by a double below one, gives a double below [x]. *)
Lemma rounded_lt mx ex my ey :
  fexp prec emax (Zpos (digits2_pos mx) + ex) = ex ->
  fexp prec emax (Zpos (digits2_pos my) + ey) = ey ->
  -1074 < ex <= 971 -> ey <= -53 ->
  SFltb (rounded false (Zpos (mx * my)) (ex + ey)) (S754_finite false mx ex) = true.
Proof.
  intros Hx Hy Hex Hey.
  destruct (canonical_digits mx ex Hx) as (Hmx & _ & [Hnx | Hnx]); [| lia].
  destruct (canonical_digits my ey Hy) as (Hmy & Hemin & _).
  pose proof (product_shift mx ex my ey Hx Hy) as Hk.
  set (M := Zpos (mx * my)) in *. set (E := ex + ey) in *.
  assert (HM : M = Zpos mx * Zpos my) by (unfold M; lia).
  assert (HE : E = ex + ey) by reflexivity.
  clearbody M E.
  assert (HM0 : 0 < M) by lia.
  assert (Hd : Zdigits2 M <= 53 - ey).
  { apply Zdigits2_le; try lia.
    replace (53 - ey) with (53 + - ey) by lia. rewrite Z.pow_add_r by lia.
    assert (2 ^ 53 <= 2 ^ (- ey)) by (apply Z.pow_le_mono_r; lia). nia. }
  assert (Hd2 : Zdigits2 M <= 106).
  { apply Zdigits2_le; try lia. change (2 ^ 106) with (2 ^ 53 * 2 ^ 53). nia. }
  pose proof (quotient_cases M E HM0 Hk) as Hq. cbv zeta in Hq.
  pose proof (nearest_even_bounds M (fexp prec emax (Zdigits2 M + E) - E)) as Hb.
  unfold rounded.
  set (e' := fexp prec emax (Zdigits2 M + E)) in *.
  set (m1 := nearest_even M (e' - E)) in *.
  assert (Hdef : e' = Z.max (Zdigits2 M + E - 53) (-1074)) by reflexivity.
  assert (Hm1 : m1 = nearest_even M (e' - E)) by reflexivity.
  clearbody m1. clearbody e'.
  assert (He' : e' <= ex) by (clear - Hdef HE Hd Hex; lia).
  assert (HP : 0 < 2 ^ (e' - E)) by (apply Z.pow_pos_nonneg; lia).
  (* at the exponent of x the mantissa stays below the mantissa of x *)
  assert (Hsame : e' = ex -> m1 < Zpos mx).
  { intros Heq. destruct Hq as [[Hn Hqb] | [Hs _]]; [| lia].
    assert (Hey' : ey = -53) by (clear - Heq Hn HE Hd2 Hey; lia).
    assert (Hk53 : e' - E = 53) by (clear - Heq HE Hey'; lia).
    assert (Hd106 : Zdigits2 M = 106) by (clear - Heq Hn HE Hey'; lia).
    destruct (Zdigits2_spec M HM0) as [_ [HMlo _]]. rewrite Hd106 in HMlo.
    change (2 ^ (106 - 1)) with (2 ^ 52 * 2 ^ 53) in HMlo.
    assert (Hmx' : 2 ^ 52 < Zpos mx) by nia.
    rewrite Hk53 in *.
    assert (Hquot : M / 2 ^ 53 <= Zpos mx - 1).
    { assert (M / 2 ^ 53 < Zpos mx); [| lia].
      apply Z.div_lt_upper_bound; [lia |]. nia. }
    destruct (Z.eq_dec (M / 2 ^ 53) (Zpos mx - 1)) as [Hqe | Hqn];
      [| clear - Hqn Hquot Hb; lia].
    rewrite Hm1, nearest_even_down; [lia | lia |].
    pose proof (Z.div_mod M (2 ^ 53)) as Hdm.
    rewrite Hqe in Hdm.
    assert (M mod 2 ^ 53 = M - 2 ^ 53 * (Zpos mx - 1)) by lia.
    assert (M <= Zpos mx * (2 ^ 53 - 1)) by nia.
    lia. }
  destruct (Z.eqb_spec m1 0) as [Hz | Hnz]; [reflexivity |].
  destruct (Z.eqb_spec m1 (2 ^ 53)) as [Hc | Hnc].
  - (* the mantissa was rounded up to 2^53 *)
    destruct Hq as [[Hn Hqb] | [Hs Hqb]]; [| lia].
    assert (Hne : e' <> ex) by (intros Heq; specialize (Hsame Heq); lia).
    assert (Hne' : e' + 1 = ex -> 2 ^ 52 < Zpos mx).
    { intros Heq.
      destruct (Z.eq_dec (Zpos mx) (2 ^ 52)) as [Hpow | Hnpow]; [exfalso | lia].
      assert (Hk52 : e' - E = Zdigits2 (Zpos my) - 1).
      { rewrite Hn. rewrite HM, Hpow, Z.mul_comm, Zdigits2_mul_pow2 by lia. lia. }
      assert (Hex0 : M mod 2 ^ (e' - E) = 0).
      { rewrite Hk52, HM, Hpow.
        destruct (Zdigits2_spec (Zpos my)) as [Hdy _]; [lia |].
        pose proof (Zdigits2_le (Zpos my) 53 ltac:(lia) Hmy ltac:(lia)).
        apply Z.mod_divide; [apply Z.pow_nonzero; lia |].
        apply Z.divide_mul_l. exists (2 ^ (52 - (Zdigits2 (Zpos my) - 1))).
        rewrite <- Z.pow_add_r by lia. f_equal. lia. }
      rewrite Hm1, nearest_even_exact in Hc by (lia || assumption).
      lia. }
    destruct (Z.leb_spec (e' + 1) 971); [| lia].
    apply SFltb_finite.
    destruct (Z.eq_dec (e' + 1) ex) as [Heq | Hneq]; [right | left; lia].
    split; [exact Heq |]. rewrite Z2Pos.id by reflexivity. auto.
  - destruct (Z.leb_spec e' 971); [| lia].
    apply SFltb_finite.
    destruct (Z.eq_dec e' ex) as [Heq | Hneq]; [right | left; lia].
    split; [exact Heq |]. rewrite Z2Pos.id by lia. auto.
Qed.

Lemma Prim2SF_zero : Prim2SF 0%float = S754_zero false.
Proof. reflexivity. Qed.

Lemma Prim2SF_one : Prim2SF 1%float = S754_finite false 4503599627370496 (-52).
Proof. reflexivity. Qed.

Lemma Prim2SF_cases x :
  match Prim2SF x with
  | S754_finite _ m e => fexp prec emax (Zpos (digits2_pos m) + e) = e /\ e <= 971
  | _ => True
  end.
Proof.
  pose proof (Prim2SF_valid x) as Hv.
  destruct (Prim2SF x); try exact I. apply bounded_iff. exact Hv.
Qed.

Lemma float_mul_1_r x : (x * 1)%float = x.
Proof.
  apply Prim2SF_inj. rewrite FloatAxioms.mul_spec, Prim2SF_one.
  pose proof (Prim2SF_cases x) as Hv.
  destruct (Prim2SF x) as [s | s | | s m e]; unfold SF64mul; cbn [SFmul];
    rewrite ?xorb_false_r; try reflexivity.
  destruct Hv as [Hcan Hmax].
  apply binary_round_aux_exact; try assumption; try lia.
  replace (e - (e + -52)) with 52 by lia. reflexivity.
Qed.

Lemma float_div_1_r x : (x / 1)%float = x.
Proof.
  apply Prim2SF_inj. rewrite FloatAxioms.div_spec, Prim2SF_one.
  pose proof (Prim2SF_cases x) as Hv.
  destruct (Prim2SF x) as [s | s | | s m e]; unfold SF64div; cbn [SFdiv];
    rewrite ?xorb_false_r; try reflexivity.
  destruct Hv as [Hcan Hmax].
  destruct (canonical_digits m e Hcan) as (Hm & Hemin & Hnormal).
  unfold SFdiv_core_binary.
  change (Zdigits2 4503599627370496) with 53.
  cbn [Zdigits2].
  pose proof Hcan as Hcan0.
  set (d := Zpos (digits2_pos m)) in Hcan |- *.
  assert (Hd : 0 < d) by (unfold d; lia).
  clearbody d. rewrite fexp64_eq in Hcan.
  assert (He' : Z.min (fexp prec emax (d + e - (53 + -52))) (e - -52)
                = fexp prec emax (d + e - 1)).
  { rewrite !fexp64_eq. lia. }
  rewrite He'.
  assert (Hrange : fexp prec emax (d + e - 1) <= e /\ e - 1 <= fexp prec emax (d + e - 1)).
  { rewrite !fexp64_eq. lia. }
  set (e' := fexp prec emax (d + e - 1)) in *. clearbody e'.
  assert (Hs : exists p, e - -52 - e' = Zpos p).
  { destruct (e - -52 - e') as [| p | p] eqn:Hp; try lia. exists p. reflexivity. }
  destruct Hs as [p Hp]. rewrite Hp.
  rewrite Z.shiftl_mul_pow2 by lia.
  assert (Hdiv : Z.div_eucl (Zpos m * 2 ^ Zpos p) 4503599627370496
                 = (Zpos m * 2 ^ (Zpos p - 52), 0)).
  { pose proof (Z.div_eucl_eq (Zpos m * 2 ^ Zpos p) 4503599627370496 ltac:(lia)) as Heq.
    pose proof (Z.mod_pos_bound (Zpos m * 2 ^ Zpos p) 4503599627370496 ltac:(lia)) as Hb.
    unfold Z.modulo in Hb.
    destruct (Z.div_eucl (Zpos m * 2 ^ Zpos p) 4503599627370496) as [q r].
    assert (Hpow : 2 ^ Zpos p = 2 ^ (Zpos p - 52) * 4503599627370496).
    { change 4503599627370496 with (2 ^ 52). rewrite <- Z.pow_add_r by lia.
      f_equal. lia. }
    assert (0 < 2 ^ (Zpos p - 52)) by (apply Z.pow_pos_nonneg; lia).
    rewrite Hpow in Heq.
    assert (q = Zpos m * 2 ^ (Zpos p - 52)) by nia.
    subst q. f_equal. lia. }
  rewrite Hdiv.
  change (new_location 4503599627370496 0) with loc_Exact.
  apply binary_round_aux_exact; try assumption; try lia.
  f_equal. f_equal. lia.
Qed.

Lemma float_sub_0_r x : (x - 0)%float = x.
Proof.
  apply Prim2SF_inj. rewrite FloatAxioms.sub_spec, Prim2SF_zero.
  destruct (Prim2SF x) as [[|] | [|] | | s m e]; reflexivity.
Qed.

(** [0 + x] is [x], except that it is the positive zero when [x] is the
    negative zero. *)
Lemma float_add_0_l x :
  Prim2SF (0 + x)%float =
  match Prim2SF x with
  | S754_zero _ => S754_zero false
  | y => y
  end.
Proof.
  rewrite FloatAxioms.add_spec, Prim2SF_zero.
  destruct (Prim2SF x) as [[|] | [|] | | s m e]; reflexivity.
Qed.

(** The order of canonical pairs, first by exponent and then by mantissa,
    is the order of the numbers [m * 2^e]. *)
Lemma canonical_lt_value m1 e1 m2 e2 lo :
  fexp prec emax (Zpos (digits2_pos m1) + e1) = e1 ->
  fexp prec emax (Zpos (digits2_pos m2) + e2) = e2 ->
  lo <= e1 -> lo <= e2 ->
  e1 < e2 \/ (e1 = e2 /\ Zpos m1 < Zpos m2) ->
  Zpos m1 * 2 ^ (e1 - lo) < Zpos m2 * 2 ^ (e2 - lo).
Proof.
  intros H1 H2 Hlo1 Hlo2 [Hlt | [Heq Hlt]].
  - destruct (canonical_digits m1 e1 H1) as (Hm1 & Hemin1 & _).
    destruct (canonical_digits m2 e2 H2) as (_ & _ & [Hn2 | Hn2]); [| lia].
    replace (e2 - lo) with ((e2 - e1 - 1) + 1 + (e1 - lo)) by lia.
    rewrite !Z.pow_add_r by lia. change (2 ^ 1) with 2.
    assert (0 < 2 ^ (e1 - lo)) by (apply Z.pow_pos_nonneg; lia).
    assert (0 < 2 ^ (e2 - e1 - 1)) by (apply Z.pow_pos_nonneg; lia).
    change (2 ^ 53) with (2 ^ 52 * 2) in Hm1.
    assert (Zpos m1 < Zpos m2 * 2 ^ (e2 - e1 - 1) * 2) by nia.
    nia.
  - subst e2. assert (0 < 2 ^ (e1 - lo)) by (apply Z.pow_pos_nonneg; lia). nia.
Qed.

Lemma canonical_le_value m1 e1 m2 e2 lo :
  fexp prec emax (Zpos (digits2_pos m1) + e1) = e1 ->
  fexp prec emax (Zpos (digits2_pos m2) + e2) = e2 ->
  lo <= e1 -> lo <= e2 ->
  e1 < e2 \/ (e1 = e2 /\ Zpos m1 <= Zpos m2) ->
  Zpos m1 * 2 ^ (e1 - lo) <= Zpos m2 * 2 ^ (e2 - lo).
Proof.
  intros H1 H2 Hlo1 Hlo2 [Hlt | [Heq Hle]].
  - apply Z.lt_le_incl. apply canonical_lt_value; auto.
  - subst e2. assert (0 < 2 ^ (e1 - lo)) by (apply Z.pow_pos_nonneg; lia). nia.
Qed.

Lemma value_lt_canonical m1 e1 m2 e2 lo :
  fexp prec emax (Zpos (digits2_pos m1) + e1) = e1 ->
  fexp prec emax (Zpos (digits2_pos m2) + e2) = e2 ->
  lo <= e1 -> lo <= e2 ->
  Zpos m1 * 2 ^ (e1 - lo) < Zpos m2 * 2 ^ (e2 - lo) ->
  e1 < e2 \/ (e1 = e2 /\ Zpos m1 < Zpos m2).
Proof.
  intros H1 H2 Hlo1 Hlo2 Hv.
  destruct (Z.lt_trichotomy e1 e2) as [Hlt | [Heq | Hgt]]; [left; exact Hlt | |].
  - right. split; [exact Heq |]. subst e2.
    assert (0 < 2 ^ (e1 - lo)) by (apply Z.pow_pos_nonneg; lia). nia.
  - pose proof (canonical_le_value m2 e2 m1 e1 lo H2 H1 Hlo2 Hlo1 (or_introl Hgt)). lia.
Qed.

Lemma value_le_canonical m1 e1 m2 e2 lo :
  fexp prec emax (Zpos (digits2_pos m1) + e1) = e1 ->
  fexp prec emax (Zpos (digits2_pos m2) + e2) = e2 ->
  lo <= e1 -> lo <= e2 ->
  Zpos m1 * 2 ^ (e1 - lo) <= Zpos m2 * 2 ^ (e2 - lo) ->
  e1 < e2 \/ (e1 = e2 /\ Zpos m1 <= Zpos m2).
Proof.
  intros H1 H2 Hlo1 Hlo2 Hv.
  destruct (Z.lt_trichotomy e1 e2) as [Hlt | [Heq | Hgt]]; [left; exact Hlt | |].
  - right. split; [exact Heq |]. subst e2.
    assert (0 < 2 ^ (e1 - lo)) by (apply Z.pow_pos_nonneg; lia). nia.
  - pose proof (canonical_lt_value m2 e2 m1 e1 lo H2 H1 Hlo2 Hlo1 (or_introl Hgt)). lia.
Qed.

(** ** The numbers of naturals *)

Lemma Prim2SF_of_nat (n : nat) : Z.of_nat n < 2 ^ 53 ->
  Prim2SF (Number.of_nat n) =
  match n with
  | O => S754_zero false
  | S _ => S754_finite false (mantissa_of (Z.of_nat n)) (exponent_of (Z.of_nat n))
  end.
Proof.
  intros Hn. unfold Number.of_nat.
  rewrite FloatAxioms.of_uint63_spec.
  change (Uint63Axioms.to_Z (Uint63.of_Z (Z.of_nat n))) with (Uint63.to_Z (Uint63.of_Z (Z.of_nat n))).
  rewrite Uint63.of_Z_spec.
  rewrite Z.mod_small by (change Uint63.wB with (2 ^ 63); split; [lia |];
    assert (2 ^ 53 < 2 ^ 63) by reflexivity; lia).
  destruct n as [| n]; [reflexivity |].
  apply binary_normalize_nat. lia.
Qed.

Lemma Prim2SF_of_Z (z : Z) : 0 <= z < 2 ^ 53 ->
  Prim2SF (Number.of_nat (Z.to_nat z)) = binary_normalize prec emax z 0 false.
Proof.
  intros Hz. unfold Number.of_nat. rewrite Z2Nat.id by lia.
  rewrite FloatAxioms.of_uint63_spec.
  change (Uint63Axioms.to_Z (Uint63.of_Z z)) with (Uint63.to_Z (Uint63.of_Z z)).
  rewrite Uint63.of_Z_spec.
  rewrite Z.mod_small by (change Uint63.wB with (2 ^ 63); split; [lia |];
    assert (2 ^ 53 < 2 ^ 63) by reflexivity; lia).
  reflexivity.
Qed.

Lemma mantissa_exponent_value n : 0 < n < 2 ^ 53 ->
  Zpos (mantissa_of n) * 2 ^ (exponent_of n - -52) = n * 2 ^ 52.
Proof.
  intros Hn. destruct (mantissa_of_spec n Hn) as (Hm & _ & _).
  pose proof (Zdigits2_le_53 n Hn) as Hd.
  rewrite Hm. unfold exponent_of. rewrite <- Z.mul_assoc, <- Z.pow_add_r by lia.
  f_equal. f_equal. lia.
Qed.

(** [n + 1] in doubles is the successor, below [2^53]. *)
Lemma of_nat_succ (n : nat) : Z.of_nat n < 2 ^ 53 - 1 ->
  (Number.of_nat n + 1)%float = Number.of_nat (S n).
Proof.
  intros Hn. apply Prim2SF_inj.
  rewrite FloatAxioms.add_spec, Prim2SF_one, !Prim2SF_of_nat by lia.
  destruct n as [| n].
  - cbn [SF64add SFadd]. reflexivity.
  - set (k := Z.of_nat (S n)) in *.
    assert (Hk : 0 < k < 2 ^ 53) by lia.
    assert (Hk1 : 0 < k + 1 < 2 ^ 53) by lia.
    replace (Z.of_nat (S (S n))) with (k + 1) by lia.
    clearbody k.
    destruct (mantissa_of_spec k Hk) as (Hm & Hb & Hcan).
    destruct (mantissa_of_spec (k + 1) Hk1) as (Hm' & Hb' & Hcan').
    pose proof (mantissa_exponent_value k Hk) as Hv.
    pose proof (mantissa_exponent_value (k + 1) Hk1) as Hv'.
    pose proof (Zdigits2_le_53 k Hk) as Hd.
    pose proof (Zdigits2_le_53 (k + 1) Hk1) as Hd'.
    unfold SF64add, SFadd. cbn [cond_Zopp].
    assert (Hmin : Z.min (exponent_of k) (-52) = -52) by (unfold exponent_of; lia).
    rewrite Hmin.
    pose proof (shl_align_spec (mantissa_of k) (exponent_of k) (-52)) as H1.
    destruct (shl_align (mantissa_of k) (exponent_of k) (-52)) as [a ea].
    destruct H1 as [Hea Ha]. rewrite Hmin in Hea. subst ea.
    cbn [fst shl_align Z.sub Z.opp Z.add Z.pos_sub Pos.pred_double].
    change (shl_align 4503599627370496 (-52) (-52)) with (4503599627370496%positive, -52).
    cbn [fst Z.add binary_normalize].
    apply binary_round_exact; try assumption; unfold exponent_of; try lia.
    fold (exponent_of (k + 1)).
    rewrite Hv', Pos2Z.inj_add, Ha, Hv.
    change (Zpos 4503599627370496) with (2 ^ 52). lia.
Qed.

Lemma Prim2SF_finite_cases x s m e : Prim2SF x = S754_finite s m e ->
  fexp prec emax (Zpos (digits2_pos m) + e) = e /\ e <= 971.
Proof. intros Hx. pose proof (Prim2SF_cases x) as H. rewrite Hx in H. exact H. Qed.

(** Numbers in the unit interval: a zero, or a positive double below one,
    whose exponent is at most [-53]. *)
Lemma unit_interval_cases u :
  (0 <=? u)%float = true -> (u <? 1)%float = true ->
  (exists s, Prim2SF u = S754_zero s) \/
  (exists m e, Prim2SF u = S754_finite false m e /\ e <= -53).
Proof.
  rewrite FloatAxioms.leb_spec, FloatAxioms.ltb_spec, Prim2SF_zero, Prim2SF_one.
  pose proof (Prim2SF_cases u) as Hv.
  destruct (Prim2SF u) as [s | s | | s m e]; intros Hle Hlt.
  - left. exists s. reflexivity.
  - destruct s; discriminate.
  - discriminate.
  - right. destruct s; [discriminate |].
    exists m, e. split; [reflexivity |].
    destruct Hv as [Hcan _].
    destruct (canonical_digits m e Hcan) as (_ & _ & Hn).
    apply SFltb_finite in Hlt. change (Zpos 4503599627370496) with (2 ^ 52) in Hlt. lia.
Qed.

Lemma floor_zero x s : Prim2SF x = S754_zero s -> Number.floor x = x.
Proof.
  intros Hx. unfold Number.floor. rewrite Hx. cbn [Number.SFfloor].
  rewrite <- Hx. apply SF2Prim_Prim2SF.
Qed.

Lemma floor_fraction x m e : Prim2SF x = S754_finite false m e -> e < 0 ->
  Number.floor x = Number.of_nat (Z.to_nat (Zpos m / 2 ^ (- e))).
Proof.
  intros Hx He.
  destruct (Prim2SF_finite_cases x _ _ _ Hx) as [Hcan _].
  destruct (canonical_digits m e Hcan) as (Hm & _ & _).
  assert (Hp : 0 < 2 ^ (- e)) by (apply Z.pow_pos_nonneg; lia).
  assert (Hq : 0 <= Zpos m / 2 ^ (- e) < 2 ^ 53).
  { split; [apply Z.div_pos; lia |].
    apply Z.div_lt_upper_bound; [lia |]. nia. }
  unfold Number.floor. rewrite Hx. cbn [Number.SFfloor].
  destruct (Z.leb_spec 0 e); [lia |].
  rewrite <- Prim2SF_of_Z by exact Hq. apply SF2Prim_Prim2SF.
Qed.

Lemma rounded_sign s M E :
  match rounded s M E with
  | S754_zero s' | S754_infinity s' | S754_finite s' _ _ => s' = s
  | S754_nan => False
  end.
Proof.
  unfold rounded.
  destruct (_ =? 0); [reflexivity |].
  destruct (_ =? 2 ^ 53); destruct (_ <=? 971); reflexivity.
Qed.

(** The number of [n], for [0 < n < 2^52], times a number of the unit
    interval is a zero or a positive double below the number of [n]. *)
Lemma scale_unit (n : nat) (u : float) : (0 < n)%nat -> Z.of_nat n < 2 ^ 52 ->
  (0 <=? u)%float = true -> (u <? 1)%float = true ->
  (exists s, Prim2SF (Number.of_nat n * u)%float = S754_zero s) \/
  (exists m e, Prim2SF (Number.of_nat n * u)%float = S754_finite false m e /\
               e < 0 /\ Zpos m < Z.of_nat n * 2 ^ (- e)).
Proof.
  intros Hpos Hn Hle Hlt.
  assert (Hn' : 0 < Z.of_nat n < 2 ^ 53).
  { assert (2 ^ 52 < 2 ^ 53) by reflexivity. lia. }
  pose proof (Prim2SF_cases (Number.of_nat n * u)%float) as Hvalid.
  rewrite FloatAxioms.mul_spec, Prim2SF_of_nat in * by lia.
  destruct n as [| n']; [lia |].
  set (k := Z.of_nat (S n')) in *. clearbody k.
  destruct (mantissa_of_spec k Hn') as (Hm & Hb & Hcan).
  pose proof (Zdigits2_le_53 k Hn') as Hd.
  assert (Hd52 : Zdigits2 k <= 52) by (apply Zdigits2_le; lia).
  destruct (unit_interval_cases u Hle Hlt) as [[s Hu] | (mu & eu & Hu & Heu)].
  - left. rewrite Hu. exists (xorb false s). reflexivity.
  - destruct (Prim2SF_finite_cases u _ _ _ Hu) as [Hcanu _].
    rewrite Hu in *. unfold SF64mul in *.
    rewrite SFmul_finite in * by assumption. cbn [xorb] in *.
    pose proof (rounded_lt (mantissa_of k) (exponent_of k) mu eu Hcan Hcanu
                  ltac:(unfold exponent_of; lia) Heu) as Hless.
    pose proof (rounded_sign false (Zpos (mantissa_of k * mu)) (exponent_of k + eu))
      as Hsign.
    destruct (rounded false (Zpos (mantissa_of k * mu)) (exponent_of k + eu))
      as [s | s | | s m e] eqn:Hr.
    + left. exists s. reflexivity.
    + subst s. discriminate.
    + contradiction.
    + right. subst s.
      exists m, e. split; [reflexivity |].
      destruct Hvalid as [Hcanm _].
      apply SFltb_finite in Hless.
      assert (He : e < 0) by (unfold exponent_of in Hless; lia).
      split; [exact He |].
      pose proof (canonical_lt_value m e (mantissa_of k) (exponent_of k) e
                    Hcanm Hcan ltac:(lia) ltac:(unfold exponent_of in *; lia) Hless) as Hv.
      rewrite Z.sub_diag, Z.mul_1_r, Hm in Hv.
      rewrite <- Z.mul_assoc, <- Z.pow_add_r in Hv by (unfold exponent_of in *; lia).
      replace (53 - Zdigits2 k + (exponent_of k - e)) with (- e) in Hv
        by (unfold exponent_of; lia).
      exact Hv.
Qed.

Lemma integer_of_nat (k : nat) : Z.of_nat k < 2 ^ 53 ->
  Number.integer_of (Number.of_nat k) = Some (Z.of_nat k).
Proof.
  intros Hk. unfold Number.integer_of. rewrite Prim2SF_of_nat by exact Hk.
  destruct k as [| k']; [reflexivity |].
  set (z := Z.of_nat (S k')) in *. assert (Hz : 0 < z < 2 ^ 53) by lia. clearbody z.
  destruct (mantissa_of_spec z Hz) as (Hm & _ & _).
  pose proof (Zdigits2_le_53 z Hz) as Hd.
  unfold exponent_of.
  destruct (Z.leb_spec 0 (Zdigits2 z - 53)) as [H0 | H0].
  - replace (Zdigits2 z - 53) with 0 by lia. rewrite Hm.
    replace (53 - Zdigits2 z) with 0 by lia. f_equal. cbn. lia.
  - rewrite Hm. replace (- (Zdigits2 z - 53)) with (53 - Zdigits2 z) by lia.
    rewrite Z.mod_mul, Z.div_mul by (apply Z.pow_nonzero; lia). reflexivity.
Qed.

(** The comparison of doubles on the numbers of naturals and on positive
    doubles with a negative exponent. *)
Lemma of_nat_leb (k : nat) x m e : Z.of_nat k < 2 ^ 53 ->
  Prim2SF x = S754_finite false m e -> e < 0 ->
  Z.of_nat k * 2 ^ (- e) <= Zpos m ->
  (Number.of_nat k <=? x)%float = true.
Proof.
  intros Hk Hx He Hv.
  destruct (Prim2SF_finite_cases x _ _ _ Hx) as [Hcan _].
  rewrite FloatAxioms.leb_spec, Hx, Prim2SF_of_nat by exact Hk.
  destruct k as [| k']; [reflexivity |].
  set (z := Z.of_nat (S k')) in *. assert (Hz : 0 < z < 2 ^ 53) by lia. clearbody z.
  destruct (mantissa_of_spec z Hz) as (Hm & _ & Hcanz).
  pose proof (mantissa_exponent_value z Hz) as Hval.
  pose proof (Zdigits2_le_53 z Hz) as Hd.
  apply SFleb_finite.
  apply (value_le_canonical _ _ _ _ (e + -52)); try assumption;
    try (unfold exponent_of; lia).
  replace (exponent_of z - (e + -52)) with ((exponent_of z - -52) + (- e))
    by lia.
  rewrite Z.pow_add_r, Z.mul_assoc, Hval by (unfold exponent_of; lia).
  replace (e - (e + -52)) with 52 by lia. nia.
Qed.

Lemma of_nat_ltb (k : nat) x m e : (0 < k)%nat -> Z.of_nat k < 2 ^ 53 ->
  Prim2SF x = S754_finite false m e -> e < 0 ->
  Zpos m < Z.of_nat k * 2 ^ (- e) ->
  (x <? Number.of_nat k)%float = true.
Proof.
  intros Hpos Hk Hx He Hv.
  destruct (Prim2SF_finite_cases x _ _ _ Hx) as [Hcan _].
  rewrite FloatAxioms.ltb_spec, Hx, Prim2SF_of_nat by exact Hk.
  destruct k as [| k']; [lia |].
  set (z := Z.of_nat (S k')) in *. assert (Hz : 0 < z < 2 ^ 53) by lia. clearbody z.
  destruct (mantissa_of_spec z Hz) as (Hm & _ & Hcanz).
  pose proof (mantissa_exponent_value z Hz) as Hval.
  pose proof (Zdigits2_le_53 z Hz) as Hd.
  apply SFltb_finite.
  apply (value_lt_canonical _ _ _ _ (e + -52)); try assumption;
    try (unfold exponent_of; lia).
  replace (exponent_of z - (e + -52)) with ((exponent_of z - -52) + (- e))
    by lia.
  rewrite Z.pow_add_r, Z.mul_assoc, Hval by (unfold exponent_of; lia).
  replace (e - (e + -52)) with 52 by lia. nia.
Qed.

(** The index that [int(0, n)] computes from a draw [u] of the unit
    interval: [floor((0 + (n + 1 - 0) * u) * 1) / 1] is the number of a
    natural [k <= n], the integer part of the double [(n + 1) * u]. *)
Lemma zero_based_index (n : nat) (u : float) : Z.of_nat n < 2 ^ 52 - 1 ->
  (0 <=? u)%float = true -> (u <? 1)%float = true ->
  exists k : nat,
    (k <= n)%nat /\
    (Number.floor ((0 + (Number.of_nat n + 1 - 0) * u) * 1) / 1)%float
      = Number.of_nat k /\
    (Number.of_nat k <=? Number.of_nat (S n) * u)%float = true /\
    (Number.of_nat (S n) * u <? Number.of_nat (S k))%float = true.
Proof.
  intros Hn Hle Hlt.
  rewrite float_mul_1_r, float_div_1_r, float_sub_0_r.
  rewrite of_nat_succ by (assert (2 ^ 52 < 2 ^ 53) by reflexivity; lia).
  set (p := (Number.of_nat (S n) * u)%float).
  pose proof (float_add_0_l p) as Hsum.
  destruct (scale_unit (S n) u ltac:(lia) ltac:(lia) Hle Hlt)
    as [[s Hp] | (m & e & Hp & He & Hv)]; fold p in Hp; rewrite Hp in Hsum.
  - exists O. split; [lia |]. split; [| split].
    + rewrite (floor_zero _ false Hsum).
      apply Prim2SF_inj. rewrite Hsum. reflexivity.
    + rewrite FloatAxioms.leb_spec, Hp. reflexivity.
    + rewrite FloatAxioms.ltb_spec, Hp. reflexivity.
  - assert (Hp2 : 0 < 2 ^ (- e)) by (apply Z.pow_pos_nonneg; lia).
    assert (Hq : 0 <= Zpos m / 2 ^ (- e) < Z.of_nat (S n)).
    { split; [apply Z.div_pos; lia |]. apply Z.div_lt_upper_bound; lia. }
    pose proof (Z.div_mod (Zpos m) (2 ^ (- e)) ltac:(lia)) as Hdm.
    pose proof (Z.mod_pos_bound (Zpos m) (2 ^ (- e)) ltac:(lia)) as Hmod.
    assert (H52 : 2 ^ 52 < 2 ^ 53) by reflexivity.
    exists (Z.to_nat (Zpos m / 2 ^ (- e))). split; [lia |]. split; [| split].
    + apply floor_fraction; assumption.
    + apply (of_nat_leb _ p m e); try assumption; [lia |].
      rewrite Z2Nat.id by lia. nia.
    + apply (of_nat_ltb _ p m e); try assumption; lia.
Qed.

(** ** Sums *)

Lemma SFadd_comm x y : SFadd prec emax x y = SFadd prec emax y x.
Proof.
  destruct x as [[|] | [|] | | sx mx ex], y as [[|] | [|] | | sy my ey];
    try reflexivity.
  cbn [SFadd]. rewrite (Z.min_comm ey ex). f_equal. apply Z.add_comm.
Qed.

Lemma float_add_comm x y : (x + y)%float = (y + x)%float.
Proof.
  apply Prim2SF_inj. rewrite !FloatAxioms.add_spec. apply SFadd_comm.
Qed.

(** A rounded positive integer, after its alignment. *)
Lemma binary_round_rounded s m e :
  exists M E, 0 < M /\ binary_round prec emax s m e = rounded s M E.
Proof.
  unfold binary_round.
  pose proof (shl_align_spec m e (fexp prec emax (Zpos (digits2_pos m) + e))) as Hal.
  destruct (shl_align m e (fexp prec emax (Zpos (digits2_pos m) + e))) as [mz ez].
  destruct Hal as [Hez Hmz].
  exists (Zpos mz), ez. split; [lia |].
  apply binary_round_aux_rounded; [lia |].
  assert (Hd : Zdigits2 (Zpos mz) + ez = Zpos (digits2_pos m) + e).
  { rewrite Hmz, Zdigits2_mul_pow2 by lia. cbn [Zdigits2]. lia. }
  rewrite Hd. lia.
Qed.

(** Doubles that are not negative: the zeros, the positive doubles and the
    positive infinity. *)
Definition SFnonneg (x : spec_float) : Prop :=
  match x with
  | S754_zero _ => True
  | S754_finite s _ _ => s = false
  | S754_infinity s => s = false
  | S754_nan => False
  end.

Lemma leb_zero_nonneg x : (0 <=? x)%float = true <-> SFnonneg (Prim2SF x).
Proof.
  rewrite FloatAxioms.leb_spec, Prim2SF_zero.
  destruct (Prim2SF x) as [s | [|] | | [|] m e]; cbn; split; intros H;
    try reflexivity; try discriminate; try exact I; try contradiction.
Qed.

Lemma rounded_nonneg M E : SFnonneg (rounded false M E).
Proof.
  pose proof (rounded_sign false M E) as H.
  destruct (rounded false M E); cbn; auto.
Qed.

Lemma SFadd_nonneg x y : SFnonneg x -> SFnonneg y -> SFnonneg (SFadd prec emax x y).
Proof.
  destruct x as [sx | sx | | sx mx ex], y as [sy | sy | | sy my ey];
    cbn [SFnonneg]; intros Hx Hy; try contradiction; subst;
    try (destruct sx; exact I); try (destruct sy; exact I);
    try (destruct sx, sy; exact I); try reflexivity.
  cbn [SFadd cond_Zopp].
  destruct (shl_align mx ex (Z.min ex ey)) as [a ea].
  destruct (shl_align my ey (Z.min ex ey)) as [b eb].
  cbn [fst Z.add binary_normalize].
  destruct (binary_round_rounded false (a + b) (Z.min ex ey)) as (M & E & _ & HR).
  rewrite HR. apply rounded_nonneg.
Qed.

Lemma float_add_nonneg x y :
  (0 <=? x)%float = true -> (0 <=? y)%float = true -> (0 <=? x + y)%float = true.
Proof.
  rewrite !leb_zero_nonneg, FloatAxioms.add_spec. apply SFadd_nonneg.
Qed.

(** Doubles that are equal as numbers and are rounded alike: the same
    double, or two zeros. *)
Definition same_number (x y : float) : Prop :=
  x = y \/ (exists s s', Prim2SF x = S754_zero s /\ Prim2SF y = S754_zero s').

Lemma same_number_refl x : same_number x x.
Proof. left. reflexivity. Qed.

Lemma same_number_add x y w :
  same_number x y -> same_number (x + w)%float (y + w)%float.
Proof.
  intros [-> | (s & s' & Hx & Hy)]; [apply same_number_refl |].
  destruct (Prim2SF w) as [sw | sw | | sw mw ew] eqn:Hw.
  - right. exists (if s then (if sw then true else false) else false),
                  (if s' then (if sw then true else false) else false).
    rewrite !FloatAxioms.add_spec, Hx, Hy, Hw. destruct s, s', sw; split; reflexivity.
  - left. apply Prim2SF_inj. rewrite !FloatAxioms.add_spec, Hx, Hy, Hw. reflexivity.
  - left. apply Prim2SF_inj. rewrite !FloatAxioms.add_spec, Hx, Hy, Hw. reflexivity.
  - left. apply Prim2SF_inj. rewrite !FloatAxioms.add_spec, Hx, Hy, Hw. reflexivity.
Qed.

Lemma same_number_zero_add w : same_number (0 + w)%float w.
Proof.
  pose proof (float_add_0_l w) as H.
  destruct (Prim2SF w) as [sw | sw | | sw mw ew] eqn:Hw.
  - right. exists false, sw. split; assumption.
  - left. apply Prim2SF_inj. rewrite H, Hw. reflexivity.
  - left. apply Prim2SF_inj. rewrite H, Hw. reflexivity.
  - left. apply Prim2SF_inj. rewrite H, Hw. reflexivity.
Qed.

Lemma leb_same_number x y y' :
  same_number y y' -> (x <=? y)%float = true -> (x <=? y')%float = true.
Proof.
  intros [-> | (s & s' & Hy & Hy')]; [auto |].
  rewrite !FloatAxioms.leb_spec, Hy, Hy'.
  destruct (Prim2SF x) as [sx | [|] | | [|] mx ex]; auto.
Qed.

(** ** The number drawn by [weighted] *)

(** For a total that is finite and not negative and a draw of the unit
    interval, [0 + (total - 0) * u] lies between zero and the total. *)
Lemma draw_bounds (total u : float) :
  (0 <=? total)%float = true -> (total <? infinity)%float = true ->
  (0 <=? u)%float = true -> (u <? 1)%float = true ->
  (0 <=? 0 + (total - 0) * u)%float = true /\
  (0 + (total - 0) * u <=? total)%float = true.
Proof.
  intros Htotal Hfinite Hle Hlt.
  rewrite float_sub_0_r.
  rewrite !FloatAxioms.leb_spec, Prim2SF_zero in *.
  rewrite FloatAxioms.ltb_spec in Hfinite.
  change (Prim2SF infinity) with (S754_infinity false) in Hfinite.
  rewrite float_add_0_l, FloatAxioms.mul_spec.
  pose proof (Prim2SF_cases total) as Hvt.
  destruct (unit_interval_cases u) as [[s Hu] | (mu & eu & Hu & Heu)];
    [rewrite FloatAxioms.leb_spec, Prim2SF_zero; exact Hle | exact Hlt | |].
  - rewrite Hu.
    destruct (Prim2SF total) as [st | [|] | | [|] mt et]; try discriminate;
      cbn; auto.
  - destruct (Prim2SF_finite_cases u _ _ _ Hu) as [Hcanu _]. rewrite Hu.
    destruct (Prim2SF total) as [st | [|] | | [|] mt et]; try discriminate.
    + cbn. auto.
    + destruct Hvt as [Hcant Hmaxt].
      destruct (canonical_digits mu eu Hcanu) as (Hmu & _ & _).
      unfold SF64mul. rewrite SFmul_finite by assumption. cbn [xorb].
      pose proof (rounded_le (Zpos (mt * mu)) (et + eu) mt et ltac:(lia)
                    (product_shift mt et mu eu Hcant Hcanu) Hcant Hmaxt ltac:(lia))
        as Hbound.
      assert (Hval : Zpos (mt * mu) <= Zpos mt * 2 ^ (et - (et + eu))).
      { replace (et - (et + eu)) with (- eu) by lia.
        assert (2 ^ 53 <= 2 ^ (- eu)) by (apply Z.pow_le_mono_r; lia).
        rewrite Pos2Z.inj_mul. nia. }
      specialize (Hbound Hval).
      pose proof (rounded_sign false (Zpos (mt * mu)) (et + eu)) as Hsign.
      destruct (rounded false (Zpos (mt * mu)) (et + eu)) as [s | s | | s m e];
        try contradiction; subst; try discriminate; split; auto.
Qed.

End Binary64Arithmetic.

(** * The numeric factories on binary64 numbers *)

Section Factories64.

Context {W : Type}.

Variable Math_pow : float -> float -> float.

Lemma next_floatWithPrecision64 (min max precision : float)
    (source : Random.Source W float) (w : W) :
  Random.next (Random64.floatWithPrecision Math_pow min max precision source) w
  = (u <- source ;;
     ret (Random64.toPrecision Math_pow precision (min + (max - min) * u)%float)) w.
Proof.
  unfold Random.next, Random64.floatWithPrecision, Random64.float, Random.map,
    pure, bind, ret. cbn [Random.source].
  destruct (source w) as [[u | message] w']; reflexivity.
Qed.

(** With no digit after the point, [toPrecision] is [Math.floor]: the
    multiplication and the division by [10 ** 0 = 1] are exact. *)
Lemma toPrecision64_0 (x : float) :
  Math_pow 10%float 0%float = 1%float ->
  Random64.toPrecision Math_pow 0%float x = Number.floor x.
Proof.
  intros Hpow. unfold Random64.toPrecision. cbv zeta.
  rewrite Hpow, float_mul_1_r, float_div_1_r. reflexivity.
Qed.

Lemma next_int64 (min max : float) (source : Random.Source W float) (w : W) :
  Math_pow 10%float 0%float = 1%float ->
  Random.next (Random64.int Math_pow min max source) w
  = (u <- source ;; ret (Number.floor (min + (max + 1 - min) * u)%float)) w.
Proof.
  intros Hpow. unfold Random64.int. rewrite next_floatWithPrecision64.
  unfold bind, ret. destruct (source w) as [[u | message] w']; [| reflexivity].
  rewrite toPrecision64_0 by exact Hpow. reflexivity.
Qed.

Lemma next_uniform64 {A : Type} (first : A) (rest : list A)
    (source : Random.Source W float) (w : W) :
  Math_pow 10%float 0%float = 1%float -> rest <> [] ->
  Random.next (Random64.uniform Math_pow first rest source) w
  = (u <- source ;;
     ret (index64 (first :: rest)
            (Number.floor (0 + (Number.of_nat (length rest) + 1 - 0) * u)%float))) w.
Proof.
  intros Hpow Hrest. unfold Random64.uniform.
  destruct rest as [| r rs]; [congruence |].
  change (length (r :: rs) =? 0)%nat with false. cbv iota.
  pose proof (next_int64 0%float (Number.of_nat (length (r :: rs))) source w Hpow)
    as Hint.
  unfold Random.next in *. cbn [Random.map Random.source] in *.
  unfold bind in *. rewrite Hint.
  destruct (source w) as [[u | message] w']; reflexivity.
Qed.

End Factories64.

(** C3: [int(min, max, source)] is [floatWithPrecision(min, max + 1, 0,
    source)], and each output is [Math.floor(min + (max + 1 - min) * u)] for
    the drawn [u], all in binary64 arithmetic ([10 ** 0] is [1]).  The
    sample is not always at most [max]: on the draw [1 - 2^-53], the
    greatest number below one, [1 + 2 * u] is rounded to [3] and
    [int(1, 2)] returns [3]; [int(100, 101)] returns [102]. *)
Theorem int_sample_above_max (Math_pow : float -> float -> float) :
  Math_pow 10%float 0%float = 1%float ->
  (forall (W : Type) (min max : float) (source : Random.Source W float),
      Random64.int Math_pow min max source
      = Random64.floatWithPrecision Math_pow min (max + 1)%float 0%float source
      /\ forall w,
           Random.next (Random64.int Math_pow min max source) w
           = (u <- source ;;
              ret (Number.floor (min + (max + 1 - min) * u)%float)) w)
  /\ (0 <=? Number.below_one)%float = true
  /\ (Number.below_one <? 1)%float = true
  /\ Random.next (Random64.int Math_pow 1%float 2%float tape64)
                 [Number.below_one]
     = (Normal 3%float, [])
  /\ Random.next (Random64.int Math_pow 100%float 101%float tape64)
                 [Number.below_one]
     = (Normal 102%float, [])
  /\ (3 <=? 2)%float = false
  /\ (102 <=? 101)%float = false.
Proof.
  intros Hpow. refine (conj _ (conj _ (conj _ (conj _ (conj _ (conj _ _)))))).
  - intros W min max source. split; [reflexivity |].
    intros w. apply next_int64. exact Hpow.
  - reflexivity.
  - reflexivity.
  - rewrite next_int64 by exact Hpow. vm_compute. reflexivity.
  - rewrite next_int64 by exact Hpow. vm_compute. reflexivity.
  - reflexivity.
  - reflexivity.
Qed.

Lemma int_sample_above_max_witness :
  power 10%float 0%float = 1%float
  /\ Random.next (Random64.int power 1%float 2%float tape64) [Number.below_one]
     = (Normal 3%float, []).
Proof.
  split; [reflexivity |].
  apply (int_sample_above_max power). reflexivity.
Defined.

(** C7: [float(min, max, source)] produces the double
    [min + (max - min) * u] for the drawn [u], and passes on the error of a
    source that throws.  The sample is not always between [min] and [max]:
    with [min = -Number.MAX_VALUE] and [max = Number.MAX_VALUE] the
    difference [max - min] overflows to [Infinity], so that the sample is
    [Infinity] on the draw [0.5] and [NaN] on the draw [0]. *)
Theorem float_sample_overflow :
  (forall (W : Type) (min max : float) (source : Random.Source W float) (w : W),
      Random.next (Random64.float min max source) w
      = (u <- source ;; ret (min + (max - min) * u)%float) w)
  /\ (- Number.MAX_VALUE <=? Number.MAX_VALUE)%float = true
  /\ (0 <=? 0.5)%float = true /\ (0.5 <? 1)%float = true
  /\ (0 <=? 0)%float = true /\ (0 <? 1)%float = true
  /\ Random.next (Random64.float (- Number.MAX_VALUE) Number.MAX_VALUE tape64)
                 [0.5%float]
     = (Normal infinity, [])
  /\ (infinity <=? Number.MAX_VALUE)%float = false
  /\ Random.next (Random64.float (- Number.MAX_VALUE) Number.MAX_VALUE tape64)
                 [0%float]
     = (Normal nan, [])
  /\ (- Number.MAX_VALUE <=? nan)%float = false
  /\ (nan <=? Number.MAX_VALUE)%float = false.
Proof.
  repeat split; try reflexivity.
Qed.

Lemma index64_of_nat {A : Type} (l : list A) (k : nat) :
  (k < length l)%nat -> (Z.of_nat (length l) < 2 ^ 53)%Z ->
  index64 l (Number.of_nat k) = nth_error l k.
Proof.
  intros Hk Hlen. unfold index64.
  rewrite integer_of_nat by lia.
  destruct (Z.ltb_spec (Z.of_nat k) (Z.of_nat (length l))); [| lia].
  rewrite Nat2Z.id. reflexivity.
Qed.

(** C6: with an empty [rest], [uniform(first, rest, source)] is
    [constant(first)] and [next] leaves the world as it is, whatever the
    source.  Otherwise [next] draws [u] from the source and returns the
    element of [[first, ...rest]] at the index
    [Math.floor(0 + (rest.length + 1 - 0) * u)], computed in binary64
    arithmetic; an error of the source is passed on.  For a draw [u] of the
    unit interval this index is a natural number [k <= rest.length], the
    integer part of the double [(rest.length + 1) * u]:
    [k <= (rest.length + 1) * u < k + 1].  So each of the [rest.length + 1]
    indices is drawn on the draws of one interval of the partition of the
    unit interval by the multiples of [1 / (rest.length + 1)], up to the
    rounding of the product, and [next] returns a member of
    [[first, ...rest]].  (An array has fewer than [2^32] elements.) *)
Theorem uniform_draws_member {W A : Type} (Math_pow : float -> float -> float)
    (first : A) (rest : list A) (source : Random.Source W float) :
  Math_pow 10%float 0%float = 1%float ->
  (Z.of_nat (length rest) < 2 ^ 32)%Z ->
  (rest = [] ->
   forall w, Random.next (Random64.uniform Math_pow first rest source) w
             = (Normal (Some first), w))
  /\ (rest <> [] ->
      forall w,
        Random.next (Random64.uniform Math_pow first rest source) w
        = (u <- source ;;
           ret (index64 (first :: rest)
                  (Number.floor
                     (0 + (Number.of_nat (length rest) + 1 - 0) * u)%float))) w)
  /\ (rest <> [] ->
      forall u : float,
        (0 <=? u)%float = true -> (u <? 1)%float = true ->
        exists (k : nat) (v : A),
          (k <= length rest)%nat
          /\ Number.floor (0 + (Number.of_nat (length rest) + 1 - 0) * u)%float
             = Number.of_nat k
          /\ (Number.of_nat k <=? Number.of_nat (S (length rest)) * u)%float = true
          /\ (Number.of_nat (S (length rest)) * u <? Number.of_nat (S k))%float
             = true
          /\ nth_error (first :: rest) k = Some v
          /\ In v (first :: rest)
          /\ forall w w',
               source w = (Normal u, w') ->
               Random.next (Random64.uniform Math_pow first rest source) w
               = (Normal (Some v), w')).
Proof.
  intros Hpow Hlen. refine (conj _ (conj _ _)).
  - intros -> w. reflexivity.
  - intros Hrest w. apply next_uniform64; assumption.
  - intros Hrest u Hle Hlt.
    assert (H32 : (2 ^ 32 < 2 ^ 52 - 1)%Z) by reflexivity.
    destruct (zero_based_index (length rest) u ltac:(lia) Hle Hlt)
      as (k & Hk & Hfloor & Hlow & Hhigh).
    rewrite float_mul_1_r, float_div_1_r in Hfloor.
    destruct (nth_error (first :: rest) k) as [v |] eqn:Hnth.
    2: { apply nth_error_None in Hnth. cbn [length] in Hnth. lia. }
    exists k, v.
    refine (conj Hk (conj Hfloor (conj Hlow (conj Hhigh (conj Hnth (conj _ _)))))).
    + eapply nth_error_In. exact Hnth.
    + intros w w' Hdraw.
      rewrite (next_uniform64 Math_pow first rest source w Hpow Hrest).
      unfold bind, ret. rewrite Hdraw, Hfloor.
      rewrite index64_of_nat, Hnth; [reflexivity | cbn [length]; lia |].
      assert (H53 : (2 ^ 32 + 1 < 2 ^ 53)%Z) by reflexivity.
      cbn [length]. lia.
Qed.

Lemma uniform_draws_member_witness :
  exists (k : nat) (v : string),
    (k <= 3)%nat
    /\ nth_error ["Club"; "Diamond"; "Spade"; "Heart"]%string k = Some v
    /\ In v ["Club"; "Diamond"; "Spade"; "Heart"]%string
    /\ Random.next
         (Random64.uniform power "Club"%string
            ["Diamond"; "Spade"; "Heart"]%string tape64)
         [0.5%float]
       = (Normal (Some v), []).
Proof.
  destruct (uniform_draws_member (W := list float) power "Club"%string
              ["Diamond"; "Spade"; "Heart"]%string tape64 eq_refl eq_refl)
    as (_ & _ & Hdraw).
  destruct (Hdraw ltac:(discriminate) 0.5%float eq_refl eq_refl)
    as (k & v & Hk & _ & _ & _ & Hnth & Hin & Hnext).
  exists k, v. repeat split; try assumption.
  apply Hnext. reflexivity.
Defined.

Section Weighted64.

Context {A : Type}.

Lemma skipn_nth_error {T : Type} (l : list T) :
  forall (i : nat) (e : T),
    nth_error l i = Some e -> skipn i l = e :: skipn (S i) l.
Proof.
  induction l as [| a l IH]; intros [| i] e H; simpl in *; try discriminate.
  - injection H as ->. reflexivity.
  - apply IH. exact H.
Qed.

Lemma continiousSum64_running_sums (source : list (A * float)) (k : nat) :
  forall (i : nat) (target : list (A * float)) (sum : float),
    (length source - i = k)%nat -> (i <= length source)%nat ->
    Random64.continiousSum source target i sum
    = target ++ running_sums64 (skipn i source) sum.
Proof.
  induction k as [| k IH]; intros i target sum Hk Hi;
    rewrite Random64.continiousSum_equation_1;
    unfold Random64.continiousSum_unfold_clause_1;
    destruct (Nat.eq_dec i (length source)) as [Heq | Hne]; try lia.
  - subst i. rewrite skipn_all. simpl. rewrite app_nil_r. reflexivity.
  - unfold Random64.continiousSum_unfold_clause_1_clause_2, inspect.
    destruct (nth_error source i) as [e |] eqn:Hread.
    + rewrite IH by lia.
      rewrite (skipn_nth_error _ _ _ Hread). simpl.
      rewrite <- app_assoc. replace (i + 1)%nat with (S i) by lia. reflexivity.
    + apply nth_error_None in Hread. lia.
Qed.

Lemma continiousSum64_all (source : list (A * float)) :
  Random64.continiousSum source [] 0 0%float = running_sums64 source 0%float.
Proof.
  rewrite (continiousSum64_running_sums source (length source)) by lia.
  reflexivity.
Qed.

Lemma getByWeight64_scan {W : Type} (source : list (A * float)) (weight : float)
    (k : nat) :
  forall (i : nat) (w : W),
    (length source - i = k)%nat ->
    Random64.getByWeight source weight i w
    = match scan64 weight (skipn i source) with
      | Some e => (Normal (fst e), w)
      | None => (Throw "Uhhh... bad!!!!", w)
      end.
Proof.
  induction k as [| k IH]; intros i w Hk;
    rewrite Random64.getByWeight_equation_1;
    unfold Random64.getByWeight_unfold_clause_1;
    destruct (lt_dec i (length source)) as [Hlt | Hge]; try lia.
  - rewrite skipn_all2 by lia. reflexivity.
  - unfold Random64.getByWeight_unfold_clause_1_clause_1.
    destruct (nth_error source i) as [e |] eqn:Hread.
    + rewrite (skipn_nth_error _ _ _ Hread). unfold scan64. simpl.
      destruct (weight <=? snd e)%float; [reflexivity |].
      replace (i + 1)%nat with (S i) by lia.
      rewrite IH by lia. reflexivity.
    + apply nth_error_None in Hread. lia.
Qed.

Lemma running_sums64_values (l : list (A * float)) :
  forall sum, List.map fst (running_sums64 l sum) = List.map fst l.
Proof.
  induction l as [| e l IH]; intros sum; simpl; [| rewrite IH]; reflexivity.
Qed.

Lemma scan64_first (x : float) (l : list (A * float)) :
  forall e, scan64 x l = Some e ->
    exists i, nth_error l i = Some e /\ (x <=? snd e)%float = true
              /\ forall j e', (j < i)%nat -> nth_error l j = Some e' ->
                               (x <=? snd e')%float = false.
Proof.
  unfold scan64.
  induction l as [| a l IH]; intros e H; simpl in H; [discriminate |].
  destruct (x <=? snd a)%float eqn:Hcmp.
  - injection H as <-. exists 0%nat. split; [reflexivity |].
    split; [exact Hcmp |]. intros j e' Hj. lia.
  - destruct (IH e H) as [i [Hi [Hle Hfirst]]].
    exists (S i). split; [exact Hi |]. split; [exact Hle |].
    intros [| j] e' Hj Hread; simpl in Hread.
    + injection Hread as <-. exact Hcmp.
    + apply (Hfirst j e'); [lia | exact Hread].
Qed.

Lemma scan64_supplied (x : float) (l : list (A * float)) (sum : float) :
  forall e, scan64 x (running_sums64 l sum) = Some e ->
            In (fst e) (List.map fst l).
Proof.
  intros e He. apply find_some in He. destruct He as [Hin _].
  rewrite <- (running_sums64_values l sum). apply in_map. exact Hin.
Qed.

(** The last running sum is the sum of all the weights, added in the order
    of the list. *)
Lemma running_sums64_last (l : list (A * float)) :
  forall (sum : float) (e : A * float),
    exists v c, In (v, c) (running_sums64 (e :: l) sum)
                /\ c = fold_left (fun acc p => (acc + snd p)%float) (e :: l) sum.
Proof.
  induction l as [| a l IH]; intros sum e.
  - exists (fst e), (snd e + sum)%float. split; [left; reflexivity |].
    simpl. apply float_add_comm.
  - destruct (IH (sum + snd e)%float a) as (v & c & Hin & Hc).
    exists v, c. split; [right; exact Hin | exact Hc].
Qed.

Lemma fold_add_same (l : list (A * float)) :
  forall x y, same_number x y ->
    same_number (fold_left (fun acc p => (acc + snd p)%float) l x)
                (fold_left (fun acc p => (acc + snd p)%float) l y).
Proof.
  induction l as [| e l IH]; intros x y H; simpl; [exact H |].
  apply IH. apply same_number_add. exact H.
Qed.

Lemma fold_add_nonneg (l : list (A * float)) :
  forall x, (0 <=? x)%float = true ->
    Forall (fun e => (0 <=? snd e)%float = true) l ->
    (0 <=? fold_left (fun acc p => (acc + snd p)%float) l x)%float = true.
Proof.
  induction l as [| e l IH]; intros x Hx Hl; simpl; [exact Hx |].
  inversion Hl as [| ? ? He Hl']; subst.
  apply IH; [| exact Hl']. apply float_add_nonneg; assumption.
Qed.

(** A number that compares at most the total is found by the scan of the
    running sums. *)
Lemma scan64_found (first : A * float) (rest : list (A * float)) (x : float) :
  (x <=? fold_left (fun acc p => (acc + snd p)%float) rest (snd first))%float
  = true ->
  exists e, scan64 x (running_sums64 (first :: rest) 0%float) = Some e.
Proof.
  intros Hx.
  destruct (running_sums64_last rest 0%float first) as (v & c & Hin & Hc).
  assert (Hsame : same_number
                    (fold_left (fun acc p => (acc + snd p)%float) rest (snd first)) c).
  { rewrite Hc. simpl.
    apply fold_add_same.
    destruct (same_number_zero_add (snd first)) as [Heq | (s & s' & H1 & H2)].
    - left. symmetry. exact Heq.
    - right. exists s', s. split; assumption. }
  pose proof (leb_same_number _ _ _ Hsame Hx) as Hc'.
  destruct (scan64 x (running_sums64 (first :: rest) 0%float)) as [e |] eqn:Hscan.
  - exists e. reflexivity.
  - unfold scan64 in Hscan.
    pose proof (find_none _ _ Hscan _ Hin) as Hnone. cbn [snd] in Hnone.
    congruence.
Qed.

End Weighted64.

Section WeightedDraw64.

Context {W A : Type}.

Variables (first : A * float) (rest : list (A * float)).
Variable source : Random.Source W float.

Lemma next_weighted64 (w : W) : rest <> [] ->
  Random.next (Random64.weighted first rest source) w
  = (u <- source ;;
     match scan64 (0 + (fold_left (fun acc p => (acc + snd p)%float) rest
                                  (snd first) - 0) * u)%float
                  (running_sums64 (first :: rest) 0%float) with
     | Some e => ret (fst e)
     | None => throw "Uhhh... bad!!!!"
     end) w.
Proof.
  intros Hrest. unfold Random64.weighted.
  destruct rest as [| r rs] eqn:Erest; [congruence |].
  change (length (r :: rs) =? 0)%nat with false. cbv iota zeta.
  unfold Random.next. cbn [Random.map Random.source Random64.float].
  unfold bind, pure, ret, throw.
  destruct (source w) as [[u | message] w']; [| reflexivity].
  rewrite continiousSum64_all.
  rewrite (getByWeight64_scan _ _ (length (running_sums64 (first :: r :: rs) 0%float)))
    by lia.
  rewrite skipn_0.
  destruct (scan64 _ (running_sums64 (first :: r :: rs) 0%float)); reflexivity.
Qed.

End WeightedDraw64.

(** C4, the claim as stated fails: with the weights [Number.MAX_VALUE] and
    [Number.MAX_VALUE], which are not negative, the total overflows to
    [Infinity]; on the draw [0] the number drawn is [Infinity * 0 = NaN],
    which is not in [[0, total)], no cumulative weight compares at least it,
    and [next] throws instead of returning a candidate.  With a total of
    [2^-1074] and the draw [1 - 2^-53] the number drawn is the total
    itself, not below it. *)
Lemma weighted_draw_outside_total :
  let first := ("a"%string, Number.MAX_VALUE) in
  let rest := [("b"%string, Number.MAX_VALUE)] in
  let total := (Number.MAX_VALUE + Number.MAX_VALUE)%float in
  let drawn := (0 + (total - 0) * 0)%float in
  (0 <=? Number.MAX_VALUE)%float = true
  /\ (0 <=? 0)%float = true /\ (0 <? 1)%float = true
  /\ total = infinity
  /\ drawn = nan
  /\ (0 <=? drawn)%float = false
  /\ (drawn <? total)%float = false
  /\ Random.next (Random64.weighted first rest tape64) [0%float]
     = (Throw "Uhhh... bad!!!!", [])
  /\ (0 + (0x1p-1074 + 0 - 0) * Number.below_one)%float = (0x1p-1074 + 0)%float
  /\ (0 + (0x1p-1074 + 0 - 0) * Number.below_one <? 0x1p-1074 + 0)%float = false.
Proof.
  cbv zeta. repeat split; vm_compute; reflexivity.
Qed.

(** C4 (amended): with an empty [rest], [weighted(first, rest, source)] is
    [constant] of the value of [first] and [next] leaves the world as it
    is.  Otherwise the list [normalized] that [continiousSum] builds holds
    the candidates in the supplied order, each with the running sum of the
    weights up to its own, every sum rounded to a double; [next] draws [u],
    computes the number [0 + (total - 0) * u], where [total] is the sum of
    all the weights, and returns the value of the first entry of
    [normalized] whose running sum compares at least this number, or throws
    when there is none; a value that is returned is one of the supplied
    values.  When the weights are not negative and the total is finite, the
    number drawn on a draw of the unit interval lies in [[0, total]] and an
    entry is found. *)
Theorem weighted_first_match_double {W A : Type} (first : A * float)
    (rest : list (A * float)) (source : Random.Source W float) :
  let candidates := first :: rest in
  let total := fold_left (fun acc p => (acc + snd p)%float) rest (snd first) in
  let normalized := running_sums64 candidates 0%float in
  (rest = [] ->
   forall w, Random.next (Random64.weighted first rest source) w
             = (Normal (fst first), w))
  /\ (rest <> [] ->
      Random64.continiousSum candidates [] 0 0%float = normalized
      /\ List.map fst normalized = List.map fst candidates
      /\ (forall w,
            Random.next (Random64.weighted first rest source) w
            = (u <- source ;;
               match scan64 (0 + (total - 0) * u)%float normalized with
               | Some e => ret (fst e)
               | None => throw "Uhhh... bad!!!!"
               end) w)
      /\ (forall (x : float) (e : A * float),
            scan64 x normalized = Some e ->
            exists i, nth_error normalized i = Some e
                      /\ (x <=? snd e)%float = true
                      /\ forall j e', (j < i)%nat ->
                                      nth_error normalized j = Some e' ->
                                      (x <=? snd e')%float = false)
      /\ (forall w v w',
            Random.next (Random64.weighted first rest source) w = (Normal v, w') ->
            In v (List.map fst candidates))
      /\ (Forall (fun e => (0 <=? snd e)%float = true) candidates ->
          (total <? infinity)%float = true ->
          forall u : float,
            (0 <=? u)%float = true -> (u <? 1)%float = true ->
            (0 <=? 0 + (total - 0) * u)%float = true
            /\ (0 + (total - 0) * u <=? total)%float = true
            /\ exists e, scan64 (0 + (total - 0) * u)%float normalized = Some e)).
Proof.
  cbv zeta. split.
  - intros -> w. reflexivity.
  - intros Hrest.
    refine (conj _ (conj _ (conj _ (conj _ (conj _ _))))).
    + apply continiousSum64_all.
    + apply running_sums64_values.
    + intros w. apply next_weighted64. exact Hrest.
    + intros x e. apply scan64_first.
    + intros w v w' Hnext.
      rewrite next_weighted64 in Hnext by exact Hrest.
      unfold bind, ret, throw in Hnext.
      destruct (source w) as [[u | message] w1]; [| discriminate].
      destruct (scan64 _ (running_sums64 (first :: rest) 0%float)) as [e |] eqn:Hscan;
        [| discriminate].
      injection Hnext as <- _.
      eapply scan64_supplied. exact Hscan.
    + intros Hweights Hfinite u Hle Hlt.
      inversion Hweights as [| ? ? Hfirst Hrest']; subst.
      pose proof (fold_add_nonneg rest (snd first) Hfirst Hrest') as Htotal.
      destruct (draw_bounds _ u Htotal Hfinite Hle Hlt) as [Hlow Hhigh].
      refine (conj Hlow (conj Hhigh _)).
      apply scan64_found. exact Hhigh.
Qed.

Lemma weighted_first_match_double_witness :
  exists e,
    scan64 (0 + (10 + 20 + 40 - 0) * 0.5)%float
           (running_sums64 [("eins"%string, 10%float); ("zwei"%string, 20%float);
                            ("drei"%string, 40%float)] 0%float)
    = Some e.
Proof.
  destruct (weighted_first_match_double (W := list float)
              ("eins"%string, 10%float)
              [("zwei"%string, 20%float); ("drei"%string, 40%float)] tape64)
    as [_ H].
  destruct (H ltac:(discriminate)) as (_ & _ & _ & _ & _ & Hdraw).
  assert (Hweights :
    Forall (fun e : string * float => (0 <=? snd e)%float = true)
      [("eins"%string, 10%float); ("zwei"%string, 20%float);
       ("drei"%string, 40%float)]).
  { repeat constructor. }
  destruct (Hdraw Hweights eq_refl 0.5%float eq_refl eq_refl) as (_ & _ & Hfound).
  exact Hfound.
Defined.

(** C5, the claim as stated fails: the weights [Number.MAX_VALUE] and
    [Number.MAX_VALUE] are not negative and the draw [0] is in the unit
    interval, and [next] reaches the failure branch of [getByWeight]; so it
    does with the weights [1] and [Infinity]. *)
Lemma weighted_failure_reached :
  (0 <=? Number.MAX_VALUE)%float = true
  /\ (0 <=? 1)%float = true /\ (0 <=? infinity)%float = true
  /\ (0 <=? 0)%float = true /\ (0 <? 1)%float = true
  /\ Random.next
       (Random64.weighted ("a"%string, Number.MAX_VALUE)
          [("b"%string, Number.MAX_VALUE)] tape64) [0%float]
     = (Throw "Uhhh... bad!!!!", [])
  /\ Random.next
       (Random64.weighted ("a"%string, 1%float)
          [("b"%string, infinity)] tape64) [0%float]
     = (Throw "Uhhh... bad!!!!", []).
Proof.
  repeat split; vm_compute; reflexivity.
Qed.

(** C5 (amended): the failure branch of [getByWeight] is not reached when
    the weights are not negative, their sum, as the program computes it, is
    finite, and the source draws a number of the unit interval: the scan
    finds a candidate and [next] returns its value, one of the supplied
    values.  When no cumulative weight compares at least the number drawn,
    [next] throws the error of the failure branch at once, in the world
    that the source left, and returns no value; [next] throws this error
    after a draw only then. *)
Theorem weighted_failure_branch_double {W A : Type} (first : A * float)
    (rest : list (A * float)) (source : Random.Source W float)
    (w w' : W) (u : float) :
  let candidates := first :: rest in
  let total := fold_left (fun acc p => (acc + snd p)%float) rest (snd first) in
  let drawn := (0 + (total - 0) * u)%float in
  rest <> [] ->
  source w = (Normal u, w') ->
  (Forall (fun e => (0 <=? snd e)%float = true) candidates ->
   (total <? infinity)%float = true ->
   (0 <=? u)%float = true -> (u <? 1)%float = true ->
   exists v,
     Random.next (Random64.weighted first rest source) w = (Normal v, w')
     /\ In v (List.map fst candidates))
  /\ ((forall e, In e (running_sums64 candidates 0%float) ->
                 (drawn <=? snd e)%float = false) ->
      Random.next (Random64.weighted first rest source) w
      = (Throw "Uhhh... bad!!!!", w'))
  /\ (Random.next (Random64.weighted first rest source) w
      = (Throw "Uhhh... bad!!!!", w') ->
      forall e, In e (running_sums64 candidates 0%float) ->
                (drawn <=? snd e)%float = false).
Proof.
  cbv zeta. intros Hrest Hdraw.
  pose proof (next_weighted64 first rest source w Hrest) as Hnext.
  unfold bind, ret, throw in Hnext. rewrite Hdraw in Hnext.
  refine (conj _ (conj _ _)).
  - intros Hweights Hfinite Hle Hlt.
    inversion Hweights as [| ? ? Hfirst Hrest']; subst.
    pose proof (fold_add_nonneg rest (snd first) Hfirst Hrest') as Htotal.
    destruct (draw_bounds _ u Htotal Hfinite Hle Hlt) as [_ Hhigh].
    destruct (scan64_found first rest _ Hhigh) as [e He].
    rewrite He in Hnext. exists (fst e). split; [exact Hnext |].
    eapply scan64_supplied. exact He.
  - intros Hnone.
    destruct (scan64 _ (running_sums64 (first :: rest) 0%float)) as [e |] eqn:Hscan;
      [| exact Hnext].
    apply find_some in Hscan. destruct Hscan as [Hin Hcmp].
    rewrite (Hnone e Hin) in Hcmp. discriminate.
  - intros Hthrow e Hin.
    destruct (scan64 _ (running_sums64 (first :: rest) 0%float)) as [e0 |] eqn:Hscan.
    + rewrite Hnext in Hthrow. discriminate.
    + exact (find_none _ _ Hscan e Hin).
Qed.

Lemma weighted_failure_branch_double_witness :
  exists v,
    Random.next
      (Random64.weighted ("eins"%string, 10%float)
         [("zwei"%string, 20%float); ("drei"%string, 40%float)] tape64)
      [0.5%float]
    = (Normal v, [])
    /\ In v ["eins"; "zwei"; "drei"]%string.
Proof.
  assert (Hweights :
    Forall (fun e : string * float => (0 <=? snd e)%float = true)
      [("eins"%string, 10%float); ("zwei"%string, 20%float);
       ("drei"%string, 40%float)]).
  { repeat constructor. }
  destruct (weighted_failure_branch_double (W := list float)
              ("eins"%string, 10%float)
              [("zwei"%string, 20%float); ("drei"%string, 40%float)] tape64
              [0.5%float] [] 0.5%float ltac:(discriminate) eq_refl)
    as (Hfound & _ & _).
  exact (Hfound Hweights eq_refl eq_refl eq_refl).
Defined.
